(** * Tabris.js: the client stub of the native bridge, widget collections and
      resource locations

    A shallow embedding of three pieces of [src/tabris]:
    - [ClientStub] (the recording client behind the native bridge): its
      operation log [$calls], its shadow store [$objects], and the inspection
      methods [calls], [resetCalls] and [properties];
    - [WidgetCollection] with its selector engine ([select], [deepSelect],
      [getFilter], [createMatcher]) and its bulk dispatch methods;
    - [App.getResourceLocation] with [normalizePath].

    JavaScript objects that are shared and mutated (the property objects
    handed to [create] and [set]) live in an explicit heap, so that aliasing
    between the caller, the log and the shadow store is kept.  Exceptions are
    outcomes of a small state-and-exception monad. *)

From Stdlib Require Import ZArith Ascii.
From stdpp Require Import gmap strings list fin_maps pretty.

Set Warnings "-register-all".
Local Open Scope string_scope.
Local Open Scope list_scope.

(** ** JavaScript values and exceptions *)

Module Js.

(** References to heap-allocated objects. *)
Definition ref := positive.

(** Values as they occur as arguments, as fields of log records and in
    property mappings.  Numbers are integers here: no claim depends on
    floating point, and [NaN] is outside the model. *)
Inductive Value :=
| VUndefined
| VNull
| VBool (b : bool)
| VNum (n : Z)
| VStr (s : string)
| VObj (r : ref).

#[global] Instance Value_eq_dec : EqDecision Value.
Proof. solve_decision. Defined.

(** [a === b]: primitives by value, objects by reference. *)
Definition strict_eq (a b : Value) : bool := bool_decide (a = b).

(** A plain object, as an object literal makes it: its own enumerable
    string-keyed data properties.  Its prototype is [Object.prototype], and
    ['__proto__'] is not among its own keys. *)
Abbreviation Obj := (gmap string Value).

(** The names under which every plain object finds a property of
    [Object.prototype]: a built-in function, and for ['__proto__'] the
    prototype itself. *)
Definition Object_prototype : list string :=
  ["constructor"; "hasOwnProperty"; "isPrototypeOf"; "propertyIsEnumerable";
   "toLocaleString"; "toString"; "valueOf"; "__proto__";
   "__defineGetter__"; "__defineSetter__"; "__lookupGetter__";
   "__lookupSetter__"].

(** [name in {}]: [Object.prototype] has a property of that name. *)
Definition inherited (name : string) : bool :=
  bool_decide (name ∈ Object_prototype).

(** What reading a property gives: a value, or the built-in object that
    [Object.prototype] holds under that name.  The built-in objects are not
    among the values of the model; none of them is equal to one. *)
Inductive Read :=
| Data (v : Value)
| BuiltIn (name : string).

#[global] Instance Read_eq_dec : EqDecision Read.
Proof. solve_decision. Defined.

(** [v !== r] negated, for a value [v] and the result [r] of a read. *)
Definition strict_eq_read (v : Value) (r : Read) : bool :=
  match r with
  | Data v' => strict_eq v v'
  | BuiltIn _ => false
  end.

Abbreviation Heap := (gmap ref Obj).

Inductive Exn :=
| Error (message : string)
| TypeError (message : string).

(** The result of running a piece of code: normal completion or [throw]. *)
Inductive Outcome (A : Type) :=
| Ok (a : A)
| Throw (e : Exn).
Arguments Ok {A} a.
Arguments Throw {A} e.

(** Code that reads and writes a state [S] and may throw.  The state
    reached when the exception is thrown is kept: effects that happened
    before a [throw] are not undone. *)
Definition M (S A : Type) : Type := S → S * Outcome A.

Definition ret {S A} (a : A) : M S A := λ s, (s, Ok a).
Definition throw {S A} (e : Exn) : M S A := λ s, (s, Throw e).
Definition bind {S A B} (m : M S A) (k : A → M S B) : M S B :=
  λ s, match m s with
       | (s', Ok a) => k a s'
       | (s', Throw e) => (s', Throw e)
       end.
Definition gets {S A} (f : S → A) : M S A := λ s, (s, Ok (f s)).
Definition modify {S} (f : S → S) : M S unit := λ s, (f s, Ok tt).

(** [array.forEach(callback)]: the callback runs on the elements in index
    order; an exception thrown by one call leaves the loop. *)
Fixpoint forEach {S A} (callback : A → M S unit) (array : list A) : M S unit :=
  match array with
  | [] => ret tt
  | x :: rest => bind (callback x) (λ _, forEach callback rest)
  end.

End Js.

Import Js.

(** The monad is used through stdpp's notations [x ← m; k] and [m ;; k]. *)
#[global] Instance M_ret {S} : MRet (M S) := @ret S.
#[global] Instance M_bind {S} : MBind (M S) := λ A B k m, bind m k.

(** ** ClientStub: the recording client *)

Module ClientStub.

(** One bridge operation as issued: the arguments of the client method.
    [properties] is an optional reference: the property object of the
    caller, shared with it, or [None] when the argument is omitted. *)
Inductive Op :=
| OpCreate (id type : string) (properties : option ref)
| OpGet (id property : string)
| OpSet (id : string) (properties : option ref)
| OpCall (id method : string) (parameters : Value)
| OpListen (id event : string) (listen : bool)
| OpDestroy (id : string).

(** The entries of [$calls]: object literals [{op: ..., id, ...}], one
    shape per operation. *)
Inductive Call :=
| CCreate (id type : string) (properties : option ref)
| CGet (id property : string)
| CSet (id : string) (properties : option ref)
| CCall (id method : string) (parameters : Value)
| CListen (id event : string) (listen : bool)
| CDestroy (id : string).

Definition of_opt_ref (o : option ref) : Value :=
  match o with Some r => VObj r | None => VUndefined end.

(** The own properties of a log record: the fields of its object literal. *)
Definition own_field (c : Call) (key : string) : option Value :=
  match c with
  | CCreate id type properties =>
      if String.eqb key "op" then Some (VStr "create")
      else if String.eqb key "id" then Some (VStr id)
      else if String.eqb key "type" then Some (VStr type)
      else if String.eqb key "properties" then Some (of_opt_ref properties)
      else None
  | CGet id property =>
      if String.eqb key "op" then Some (VStr "get")
      else if String.eqb key "id" then Some (VStr id)
      else if String.eqb key "property" then Some (VStr property)
      else None
  | CSet id properties =>
      if String.eqb key "op" then Some (VStr "set")
      else if String.eqb key "id" then Some (VStr id)
      else if String.eqb key "properties" then Some (of_opt_ref properties)
      else None
  | CCall id method parameters =>
      if String.eqb key "op" then Some (VStr "call")
      else if String.eqb key "id" then Some (VStr id)
      else if String.eqb key "method" then Some (VStr method)
      else if String.eqb key "parameters" then Some parameters
      else None
  | CListen id event listen =>
      if String.eqb key "op" then Some (VStr "listen")
      else if String.eqb key "id" then Some (VStr id)
      else if String.eqb key "event" then Some (VStr event)
      else if String.eqb key "listen" then Some (VBool listen)
      else None
  | CDestroy id =>
      if String.eqb key "op" then Some (VStr "destroy")
      else if String.eqb key "id" then Some (VStr id)
      else None
  end.

(** [call[key]]: the own field of that name; failing that, what the record
    inherits from [Object.prototype] under that name; failing that,
    [undefined]. *)
Definition field (c : Call) (key : string) : Read :=
  match own_field c key with
  | Some v => Data v
  | None => if inherited key then BuiltIn key else Data VUndefined
  end.

(** An entry of [$objects]: [{type, properties}]; the placeholder that
    [set] creates, [{properties: {}}], has no [type]. *)
Record ObjectRecord := {
  type : option string;
  properties_of : option ref
}.

(** The client together with what it shares with its surroundings: the
    heap holding the property objects, and the buffer of the native bridge
    in front of it.

    [_objects] stands for the plain object [this.$objects].  Its entries are
    the own properties of that object, with one exception: an assignment to
    [this.$objects['__proto__']] does not make an own property but replaces
    the prototype of [$objects], and the entry under ["__proto__"], when
    there is one, is the record that has become that prototype.  Without
    such an entry the prototype is [Object.prototype]. *)
Record World := {
  heap : Heap;
  _calls : list Call;
  _objects : gmap string ObjectRecord;
  pending : list Op
}.

Definition set_heap (h : Heap) (w : World) : World :=
  {| heap := h; _calls := _calls w; _objects := _objects w; pending := pending w |}.
Definition set_calls (c : list Call) (w : World) : World :=
  {| heap := heap w; _calls := c; _objects := _objects w; pending := pending w |}.
Definition set_objects (o : gmap string ObjectRecord) (w : World) : World :=
  {| heap := heap w; _calls := _calls w; _objects := o; pending := pending w |}.
Definition set_pending (p : list Op) (w : World) : World :=
  {| heap := heap w; _calls := _calls w; _objects := _objects w; pending := p |}.

(** [new ClientStub()] in front of an idle bridge. *)
Definition new (h : Heap) : World :=
  {| heap := h; _calls := []; _objects := ∅; pending := [] |}.

(** [this.$calls.push(call)] *)
Definition push (c : Call) : M World unit :=
  modify (λ w, set_calls (_calls w ++ [c]) w).

(** [{}]: allocate a fresh empty object. *)
Definition alloc_empty : M World ref :=
  λ w, let r := fresh (dom (heap w)) in
       (set_heap (<[r := ∅]> (heap w)) w, Ok r).

(** The content of the object behind a reference. *)
Definition deref (h : Heap) (r : ref) : Obj := h !!! r.

(** The names that [this.$objects] finds along its prototype chain: the
    two fields of the record that is the prototype, when a record is, and
    the properties of [Object.prototype].

    [id in this.$objects]: an own property, or one that is inherited. *)
Definition inherits (objects : gmap string ObjectRecord) (id : string) : bool :=
  (bool_decide (is_Some (objects !! "__proto__"))
   && (String.eqb id "type" || String.eqb id "properties"))
  || inherited id.

Definition in_objects (objects : gmap string ObjectRecord) (id : string) : bool :=
  bool_decide (is_Some (objects !! id)) || inherits objects id.

(** What [this.$objects[id]] gives: a record, a value found in the record
    that is the prototype, or a built-in object. *)
Inductive Found :=
| FoundRecord (o : ObjectRecord)
| FoundRead (r : Read).

Definition lookup_objects (objects : gmap string ObjectRecord) (id : string)
    : Found :=
  match objects !! id with
  | Some o => FoundRecord o
  | None =>
      match objects !! "__proto__" with
      | Some o =>
          if String.eqb id "type" then
            FoundRead (Data (match type o with
                             | Some t => VStr t
                             | None => VUndefined
                             end))
          else if String.eqb id "properties" then
            FoundRead (Data (of_opt_ref (properties_of o)))
          else if inherited id then FoundRead (BuiltIn id)
          else FoundRead (Data VUndefined)
      | None =>
          if inherited id then FoundRead (BuiltIn id)
          else FoundRead (Data VUndefined)
      end
  end.

(** [x.properties] for what [this.$objects[id]] gave: the field of a
    record; the own property of a plain object; [undefined] on a string, a
    number, a boolean or a built-in object, none of which has a property of
    that name; a [TypeError] on [undefined] and [null]. *)
Definition read_properties (x : Found) : M World Value :=
  match x with
  | FoundRecord o => ret (of_opt_ref (properties_of o))
  | FoundRead (BuiltIn _) => ret VUndefined
  | FoundRead (Data VUndefined) | FoundRead (Data VNull) =>
      throw (TypeError "Cannot read properties of undefined")
  | FoundRead (Data (VObj r)) =>
      gets (λ w, default VUndefined (deref (heap w) r !! "properties"))
  | FoundRead (Data _) => ret VUndefined
  end.

(** The keys of a string object that cannot be written: ["length"] and the
    indices of its characters. *)
Definition read_only_key (s : string) (key : string) : bool :=
  String.eqb key "length"
  || existsb (λ i, String.eqb key (pretty i)) (seq 0 (String.length s)).

(** [Object.assign(target, source)].  An [undefined] or [null] target
    throws; an [undefined] source is skipped.  Otherwise every own property
    of the source is written to the target, overwriting the keys present:
    to the object itself when the target is an object; to a wrapper that is
    dropped afterwards when it is a number or a boolean; and likewise for a
    string, whose wrapper throws on a key that cannot be written. *)
Definition object_assign (target : Value) (source : option ref) : M World unit :=
  match target with
  | VUndefined | VNull =>
      throw (TypeError "Cannot convert undefined or null to object")
  | VObj t =>
      match source with
      | None => ret tt
      | Some s =>
          modify (λ w, set_heap (<[t := deref (heap w) s ∪ deref (heap w) t]> (heap w)) w)
      end
  | VBool _ | VNum _ => ret tt
  | VStr str =>
      match source with
      | None => ret tt
      | Some s =>
          keys ← gets (λ w, (map_to_list (deref (heap w) s)).*1);
          if existsb (read_only_key str) keys
          then throw (TypeError "Cannot assign to read only property")
          else ret tt
      end
  end.

Definition create (id type : string) (properties : option ref) : M World unit :=
  push (CCreate id type properties) ;;
  modify (λ w, set_objects
                 (<[id := {| type := Some type; properties_of := properties |}]> (_objects w)) w).

Definition get (id property : string) : M World unit :=
  push (CGet id property).

Definition set (id : string) (properties : option ref) : M World unit :=
  push (CSet id properties) ;;
  known ← gets (λ w, in_objects (_objects w) id);
  (if negb known
   then r ← alloc_empty;
        modify (λ w, set_objects
                       (<[id := {| type := None; properties_of := Some r |}]> (_objects w)) w)
   else ret tt) ;;
  entry ← gets (λ w, lookup_objects (_objects w) id);
  target ← read_properties entry;
  object_assign target properties.

Definition call (id method : string) (parameters : Value) : M World unit :=
  push (CCall id method parameters).

Definition listen (id event : string) (listen : bool) : M World unit :=
  push (CListen id event listen).

(** [delete this.$objects[id]]: removes the own property of that name.
    ['__proto__'] is never an own property, and the prototype stays. *)
Definition delete_objects (id : string) (objects : gmap string ObjectRecord)
    : gmap string ObjectRecord :=
  if String.eqb id "__proto__" then objects else delete id objects.

Definition destroy (id : string) : M World unit :=
  push (CDestroy id) ;;
  modify (λ w, set_objects (delete_objects id (_objects w)) w).

(** One operation issued through the client. *)
Definition issue (o : Op) : M World unit :=
  match o with
  | OpCreate id type properties => create id type properties
  | OpGet id property => get id property
  | OpSet id properties => set id properties
  | OpCall id method parameters => call id method parameters
  | OpListen id event l => listen id event l
  | OpDestroy id => destroy id
  end.

(** The log record an operation leaves. *)
Definition record_of (o : Op) : Call :=
  match o with
  | OpCreate id type properties => CCreate id type properties
  | OpGet id property => CGet id property
  | OpSet id properties => CSet id properties
  | OpCall id method parameters => CCall id method parameters
  | OpListen id event l => CListen id event l
  | OpDestroy id => CDestroy id
  end.

(** A run of client calls made one after the other by a caller that goes
    on after a call that threw. *)
Definition issue_all (ops : list Op) (w : World) : World :=
  fold_left (λ w o, (issue o w).1) ops w.

(** Modelled from the spec: [tabris._nativeBridge.flush] belongs to the
    bridge module, whose code is not among the files embedded here.  The
    bridge hands the operations it has buffered to the client, in the order
    they were buffered, and leaves its buffer empty. *)
Definition flush : M World unit :=
  ops ← gets pending;
  modify (set_pending []) ;;
  forEach issue ops.

(** The callback of [select]: the [for ... in] loop over the filter, with
    its early [return false].  An [undefined] filter has no keys. *)
Definition matches_filter (filterProperties : option Obj) (c : Call) : bool :=
  match filterProperties with
  | None => true
  | Some f =>
      forallb (λ kv, strict_eq_read kv.2 (field c kv.1)) (map_to_list f)
  end.

(** [select.call(this.$calls, filterProperties)] *)
Definition select (this : list Call) (filterProperties : option Obj) : list Call :=
  List.filter (matches_filter filterProperties) this.

Definition calls (filterProperties : option Obj) : M World (list Call) :=
  flush ;;
  log ← gets _calls;
  ret (select log filterProperties).

Definition resetCalls : M World unit :=
  flush ;;
  modify (set_calls []).

Definition properties (id : string) : M World Value :=
  flush ;;
  known ← gets (λ w, in_objects (_objects w) id);
  if negb known then throw (Error ("No object with id " +:+ id))
  else
    entry ← gets (λ w, lookup_objects (_objects w) id);
    read_properties entry.

(** The spec's reading of a filter: every key/value pair of the filter is
    a field of the record with that very value. *)
Definition Matches (f : Obj) (c : Call) : Prop :=
  map_Forall (λ key v, field c key = Data v) f.

#[global] Instance Matches_dec f c : Decision (Matches f c).
Proof. unfold Matches. apply _. Defined.

End ClientStub.

(** ** Widget proxies, as the collection engine reads them *)

Module Widget.

(** A prototype object, named after the class it belongs to. *)
Definition Proto := string.

(** [NativeObject.prototype] *)
Definition NativeObject_prototype : Proto := "NativeObject".

(** A proxy with the attributes the selector engine looks at.  [cid] is the
    identity of the proxy: two occurrences with the same [cid] are the same
    object, reached twice.  [prototypes] is the prototype chain of the
    proxy, nearest first; [children] is what [widget.children()] holds. *)
Inductive Widget := MkWidget {
  cid : string;
  id : option string;
  classList : list string;
  constructor_name : string;
  prototypes : list Proto;
  children : list Widget
}.

(** A function value used as a selector: what calling it on a widget gives
    (as a truth value), and the chain that starts at [fn.prototype] and
    follows [Object.getPrototypeOf] up to [null]. *)
Record Function := {
  apply : Widget → bool;
  prototype_chain : list Proto
}.

Inductive Selector :=
| SelString (s : string)
| SelFunction (fn : Function).

(** [a === b] on proxies. *)
Definition same (a b : Widget) : bool := String.eqb (cid a) (cid b).

(** [widget instanceof fn]: [fn.prototype] occurs in the chain of [widget]. *)
Definition instanceof (w : Widget) (fn : Function) : bool :=
  match prototype_chain fn with
  | [] => false
  | p :: _ => existsb (String.eqb p) (prototypes w)
  end.

End Widget.

Import Widget.

Module JsString.

(** [s.charAt(0)]: the first character as a string, empty for the empty
    string. *)
Definition charAt0 (s : string) : string :=
  match s with
  | EmptyString => EmptyString
  | String c _ => String c EmptyString
  end.

(** [s.slice(1)] *)
Definition slice1 (s : string) : string :=
  match s with
  | EmptyString => EmptyString
  | String _ rest => rest
  end.

(** [!!s] *)
Definition truthy (s : string) : bool :=
  match s with
  | EmptyString => false
  | String _ _ => true
  end.

(** [array.indexOf(needle)], for elements compared by [same]. *)
Fixpoint indexOf {A} (same : A → A → bool) (array : list A) (needle : A) : Z :=
  match array with
  | [] => (-1)%Z
  | x :: rest =>
      if same x needle then 0%Z
      else let i := indexOf same rest needle in
           if (i =? -1)%Z then (-1)%Z else (i + 1)%Z
  end.

(** [array.join(sep)] *)
Fixpoint join (sep : string) (array : list string) : string :=
  match array with
  | [] => EmptyString
  | [x] => x
  | x :: rest => x +:+ sep +:+ join sep rest
  end.

End JsString.

Import JsString.

(** ** WidgetCollection and its selector engine *)

Module WidgetCollection.

(** The [matches] object of [getFilter]: the [cid]s recorded as matched. *)
Abbreviation Matches := (gset string).

(** A filter with its closure state threaded through. *)
Definition Filter : Type := Widget → Matches → bool * Matches.

(** [isWidgetConstructor(fn)]: the walk from [fn.prototype] upwards meets
    [NativeObject.prototype]. *)
Definition isWidgetConstructor (fn : Function) : bool :=
  existsb (String.eqb NativeObject_prototype) (prototype_chain fn).

Definition isFilter (selector : Selector) : bool :=
  match selector with
  | SelFunction fn => negb (isWidgetConstructor fn)
  | SelString _ => false
  end.

Definition createMatcher (selector : Selector) : Widget → bool :=
  match selector with
  | SelFunction fn => λ widget, instanceof widget fn
  | SelString selector =>
      if String.eqb (charAt0 selector) "#" then
        let expectedId := slice1 selector in
        λ widget, bool_decide (Some expectedId = id widget)
      else if String.eqb (charAt0 selector) "." then
        let expectedClass := slice1 selector in
        λ widget, negb (indexOf String.eqb (classList widget) expectedClass =? -1)%Z
      else if String.eqb selector "*" then
        λ _, true
      else
        λ widget, String.eqb selector (constructor_name widget)
  end.

Definition getFilter (selector : Selector) : Filter :=
  let filter :=
    match selector with
    | SelFunction fn => if isFilter selector then apply fn else createMatcher selector
    | SelString _ => createMatcher selector
    end in
  λ widget matches,
    if bool_decide (cid widget ∈ matches) then (false, matches)
    else if filter widget then (true, {[cid widget]} ∪ matches)
    else (false, matches).

(** The body of the loop of [deepSelect] for one widget: test it, then go
    through its children with the same [result] and the same filter. *)
Fixpoint deepSelect_visit (filter : Filter) (widget : Widget)
    (acc : list Widget * Matches) : list Widget * Matches :=
  let (hit, matches) := filter widget acc.2 in
  let result := if hit then acc.1 ++ [widget] else acc.1 in
  match widget with
  | MkWidget _ _ _ _ _ children =>
      if (0 <? length children)%nat
      then fold_left (λ acc child, deepSelect_visit filter child acc) children
             (result, matches)
      else (result, matches)
  end.

Definition deepSelect (result : list Widget) (iterable : list Widget)
    (filter : Filter) (matches : Matches) : list Widget * Matches :=
  fold_left (λ acc widget, deepSelect_visit filter widget acc) iterable
    (result, matches).

(** [array.filter(filter)] for a filter with state. *)
Fixpoint array_filter (filter : Filter) (array : list Widget) (matches : Matches)
    : list Widget * Matches :=
  match array with
  | [] => ([], matches)
  | widget :: rest =>
      let (hit, matches') := filter widget matches in
      let (kept, final) := array_filter filter rest matches' in
      (if hit then widget :: kept else kept, final)
  end.

Definition is_star (selector : Selector) : bool :=
  match selector with
  | SelString s => String.eqb s "*"
  | SelFunction _ => false
  end.

Definition select (array : list Widget) (selector : Selector) (deep : bool)
    : list Widget :=
  if (length array =? 0)%nat then []
  else if is_star selector && negb deep then array
  else
    let filter := getFilter selector in
    if deep then (deepSelect [] array filter ∅).1
    else (array_filter filter array ∅).1.

Record WidgetCollection := { _array : list Widget }.

(** [selector || '*']: an omitted selector and the empty string are falsy. *)
Definition or_star (selector : option Selector) : Selector :=
  match selector with
  | None => SelString "*"
  | Some (SelString EmptyString) => SelString "*"
  | Some selector => selector
  end.

(** [new WidgetCollection(collection, selector, deep)]; a collection given in
    place of an array is read through [toArray]. *)
Definition new (collection : list Widget) (selector : option Selector)
    (deep : bool) : WidgetCollection :=
  {| _array := select collection (or_star selector) deep |}.

Definition length (this : WidgetCollection) : nat := List.length (_array this).

Definition toArray (this : WidgetCollection) : list Widget := _array this.

Definition filter (this : WidgetCollection) (selector : option Selector)
    : WidgetCollection :=
  new (_array this) selector false.

Definition first (this : WidgetCollection) (selector : option Selector)
    : option Widget :=
  match selector with
  | Some (SelString EmptyString) | None => head (_array this)
  | Some _ => head (_array (filter this selector))
  end.

Definition last (this : WidgetCollection) (selector : option Selector)
    : option Widget :=
  match selector with
  | Some (SelString EmptyString) | None => List.last (Some <$> _array this) None
  | Some _ => List.last (Some <$> _array (filter this selector)) None
  end.

Definition children (this : WidgetCollection) (selector : option Selector)
    : WidgetCollection :=
  let result :=
    fold_left (λ result widget, result ++ Widget.children widget) (_array this) [] in
  new result selector false.

Definition find (this : WidgetCollection) (selector : option Selector)
    : WidgetCollection :=
  new (_array (children this None)) selector true.

Section Parent.

(** [widget.parent()], a method of the widget module: the parent
    proxy, if the widget has one. *)
Variable parent_of : Widget → option Widget.

(** [parent()]: [None] stands for the missing return value. *)
Definition parent (this : WidgetCollection) : option WidgetCollection :=
  let result :=
    fold_left
      (λ result widget,
         match parent_of widget with
         | Some parent =>
             if (indexOf same result parent =? -1)%Z then result ++ [parent]
             else result
         | None => result
         end)
      (_array this) [] in
  if (0 <? List.length result)%nat then Some (new result None false) else None.

End Parent.

(** One round of the loops of [deepSelect] and [array.filter]: test the
    widget, keep it on a hit. *)
Definition step (filter : Filter) (acc : list Widget * Matches) (widget : Widget)
    : list Widget * Matches :=
  let (hit, matches) := filter widget acc.2 in
  (if hit then acc.1 ++ [widget] else acc.1, matches).

(** The pre-order walk of a subtree: the widget, then the walks of its
    children from left to right. *)
Fixpoint preorder (widget : Widget) : list Widget :=
  match widget with
  | MkWidget _ _ _ _ _ children => widget :: flat_map preorder children
  end.

(** Keep the first occurrence of every [cid]. *)
Fixpoint first_occurrences (seen : Matches) (l : list Widget) : list Widget :=
  match l with
  | [] => []
  | widget :: rest =>
      if bool_decide (cid widget ∈ seen) then first_occurrences seen rest
      else widget :: first_occurrences ({[cid widget]} ∪ seen) rest
  end.

(** The test a selector stands for, without the bookkeeping of
    [getFilter]. *)
Definition test (selector : Selector) : Widget → bool :=
  if isFilter selector
  then match selector with SelFunction fn => apply fn | SelString _ => λ _, false end
  else createMatcher selector.

(** The methods of a widget that a collection forwards to. *)
Inductive MethodName :=
| m_set | m_on | m_off | m_once | m_trigger | m_animate | m_dispose.

(** What a bulk method hands back: [this], or nothing. *)
Inductive Returned :=
| ReturnedThis (this : WidgetCollection)
| ReturnedUndefined.

Section Dispatch.

(** The state the widget methods act on and the [arguments] object. *)
Context {St Args : Type}.

(** [widget.<method>.apply(widget, arguments)]: the methods of the proxies
    are defined by the widget classes and are a parameter here; a call
    changes the state and may throw. *)
Variable widget_method : MethodName → Widget → Args → M St unit.

Definition set (this : WidgetCollection) (arguments : Args) : M St Returned :=
  forEach (λ widget, widget_method m_set widget arguments) (_array this) ;;
  mret (ReturnedThis this).

Definition on (this : WidgetCollection) (arguments : Args) : M St Returned :=
  forEach (λ widget, widget_method m_on widget arguments) (_array this) ;;
  mret (ReturnedThis this).

Definition off (this : WidgetCollection) (arguments : Args) : M St Returned :=
  forEach (λ widget, widget_method m_off widget arguments) (_array this) ;;
  mret (ReturnedThis this).

Definition once (this : WidgetCollection) (arguments : Args) : M St Returned :=
  forEach (λ widget, widget_method m_once widget arguments) (_array this) ;;
  mret (ReturnedThis this).

Definition trigger (this : WidgetCollection) (arguments : Args) : M St Returned :=
  forEach (λ widget, widget_method m_trigger widget arguments) (_array this) ;;
  mret (ReturnedThis this).

Definition animate (this : WidgetCollection) (arguments : Args) : M St Returned :=
  forEach (λ widget, widget_method m_animate widget arguments) (_array this) ;;
  mret ReturnedUndefined.

Definition dispose (this : WidgetCollection) (arguments : Args) : M St Returned :=
  forEach (λ widget, widget_method m_dispose widget arguments) (_array this) ;;
  mret ReturnedUndefined.

(** The bulk method of a given name. *)
Definition bulk (m : MethodName) : WidgetCollection → Args → M St Returned :=
  match m with
  | m_set => set
  | m_on => on
  | m_off => off
  | m_once => once
  | m_trigger => trigger
  | m_animate => animate
  | m_dispose => dispose
  end.

(** What a bulk method returns when it completes. *)
Definition returned (m : MethodName) (this : WidgetCollection) : Returned :=
  match m with
  | m_animate | m_dispose => ReturnedUndefined
  | _ => ReturnedThis this
  end.

(** The state after calling [m] with the same arguments on each widget of
    [array] in turn, each call starting where the previous one stopped. *)
Definition apply_to_all (m : MethodName) (array : list Widget) (arguments : Args)
    (s : St) : St :=
  fold_left (λ s widget, (widget_method m widget arguments s).1) array s.

(** The widgets of [array] whose call does not throw, when the calls are
    made one after the other from [s]. *)
Fixpoint all_succeed (m : MethodName) (array : list Widget) (arguments : Args)
    (s : St) : Prop :=
  match array with
  | [] => True
  | widget :: rest =>
      match widget_method m widget arguments s with
      | (s', Ok _) => all_succeed m rest arguments s'
      | (_, Throw _) => False
      end
  end.

(** The spec's fire-and-continue reading of a bulk method: every member is
    called, in order, whatever the calls before it did. *)
Definition fire_and_continue (m : MethodName) (this : WidgetCollection)
    (arguments : Args) (s : St) : St :=
  apply_to_all m (_array this) arguments s.

End Dispatch.

End WidgetCollection.

(** ** App: resource locations *)

Module App.

(** [path.split(/\/+/)]: the pieces between maximal runs of slashes.
    [after_slash] tells that the character before was a slash of the run
    being skipped.  The head of the result is the piece being read. *)
Fixpoint split_from (path : string) (after_slash : bool) : list string :=
  match path with
  | EmptyString => [EmptyString]
  | String c rest =>
      if Ascii.eqb c "/"%char then
        if after_slash then split_from rest true
        else EmptyString :: split_from rest true
      else
        match split_from rest false with
        | segment :: segments => String c segment :: segments
        | [] => [String c EmptyString]
        end
  end.

Definition split (path : string) : list string := split_from path false.

(** [array.map(f)] for a callback that may throw: the first exception
    leaves the loop. *)
Fixpoint map_throwing {A B} (f : A → Outcome B) (array : list A) : Outcome (list B) :=
  match array with
  | [] => Ok []
  | x :: rest =>
      match f x with
      | Throw e => Throw e
      | Ok y =>
          match map_throwing f rest with
          | Throw e => Throw e
          | Ok ys => Ok (y :: ys)
          end
      end
  end.

Definition quote : string := String (Ascii.ascii_of_nat 34) EmptyString.

Section NormalizePath.

(** [toValueString] of the console module, a parameter here: how a value
    is shown in a message. *)
Variable toValueString : string → string.

Definition must_not_contain (path : string) : Exn :=
  Error ("Path " +:+ toValueString path +:+ " must not contain "
           +:+ quote +:+ ".." +:+ quote).

Definition normalizePath (path : string) : Outcome string :=
  match
    map_throwing
      (λ segment,
         if String.eqb segment ".." then Throw (must_not_contain path)
         else if String.eqb segment "." then Ok EmptyString
         else Ok segment)
      (split path)
  with
  | Throw e => Throw e
  | Ok segments => Ok (join "/" (List.filter truthy segments))
  end.

(** The app object, as far as resource locations go: the cached
    [_resourceBaseUrl], [None] while the property is not defined. *)
Record App := { _resourceBaseUrl : option string }.

(** [this._nativeGet('resourceBaseUrl')] *)
Variable native_resourceBaseUrl : string.

(** [Object.defineProperty(this, '_resourceBaseUrl', {enumerable: false,
    writable: false, value})]: defines the property when it is missing; on
    the property it defined before, which is neither writable nor
    configurable, the same value is accepted and another one throws. *)
Definition define_resourceBaseUrl (value : string) : M App unit :=
  λ this,
    match _resourceBaseUrl this with
    | None => ({| _resourceBaseUrl := Some value |}, Ok tt)
    | Some url =>
        if String.eqb url value then (this, Ok tt)
        else (this, Throw (TypeError "Cannot redefine property: _resourceBaseUrl"))
    end.

(** [!this._resourceBaseUrl] *)
Definition no_resourceBaseUrl (this : App) : bool :=
  match _resourceBaseUrl this with
  | Some url => negb (truthy url)
  | None => true
  end.

(** [getResourceLocation(path)]; [path] is [None] for [null] and
    [undefined], and the string [String(path)] otherwise. *)
Definition getResourceLocation (path : option string) : M App string :=
  missing ← gets no_resourceBaseUrl;
  (if (missing : bool) then define_resourceBaseUrl native_resourceBaseUrl else ret tt) ;;
  base ← gets (λ this : App, default EmptyString (_resourceBaseUrl this));
  match path with
  | Some path =>
      match normalizePath path with
      | Throw e => throw e
      | Ok normalized => ret (base +:+ "/" +:+ normalized)
      end
  | None => ret (base +:+ EmptyString)
  end.

(** The states of the app that [getResourceLocation] itself produces. *)
Definition wf (this : App) : Prop :=
  _resourceBaseUrl this = None ∨ _resourceBaseUrl this = Some native_resourceBaseUrl.

End NormalizePath.

(** The slash-separated segments of a path, every slash separating. *)
Fixpoint segments (path : string) : list string :=
  match path with
  | EmptyString => [EmptyString]
  | String c rest =>
      if Ascii.eqb c "/"%char then EmptyString :: segments rest
      else
        match segments rest with
        | segment :: others => String c segment :: others
        | [] => [String c EmptyString]
        end
  end.

(** A segment that is kept: neither empty nor a single dot. *)
Definition kept (segment : string) : bool :=
  negb (String.eqb segment EmptyString) && negb (String.eqb segment ".").

End App.

(** ** Sample data *)

Module Sample.

Import WidgetCollection.

Definition leaf (cid : string) (id : option string) (classes : list string)
    (name : string) : Widget :=
  MkWidget cid id classes name [name; "Widget"; "NativeObject"] [].

Definition composite (cid : string) (children : list Widget) : Widget :=
  MkWidget cid None [] "Composite" ["Composite"; "Widget"; "NativeObject"] children.

Definition a : Widget := leaf "a" (Some "x") [] "TextView".
Definition b : Widget := leaf "b" None ["y"] "TextView".
Definition c : Widget := leaf "c" None [] "Button".

(** A root whose second child holds [c], next to [a] and [b]. *)
Definition inner : Widget := composite "inner" [c].
Definition root : Widget := composite "root" [a; inner; b].

(** [widget.parent()] in that tree. *)
Definition parent_of (widget : Widget) : option Widget :=
  if existsb (String.eqb (cid widget)) ["a"; "inner"; "b"] then Some root
  else if String.eqb (cid widget) "c" then Some inner
  else None.

(** Widget methods that leave a trace: each call writes the method and the
    [cid] it was called on to the trace; the call on the widget ["b"] then
    throws. *)
Definition recording (m : MethodName) (widget : Widget) (arguments : list Value)
    : M (list (MethodName * string * list Value)) unit :=
  λ trace,
    (trace ++ [(m, cid widget, arguments)],
     if String.eqb (cid widget) "b" then Throw (Error "b failed") else Ok tt).

(** A stand-in for [toValueString] on strings: the string in quotes. *)
Definition toValueString (s : string) : string := App.quote +:+ s +:+ App.quote.

End Sample.

(** ** Further methods of the client stub *)

Module Client.

Import ClientStub.

(** The string without its first [n] characters. *)
Fixpoint skip (n : nat) (s : string) : string :=
  match n, s with
  | O, _ => s
  | S n, String _ rest => skip n rest
  | S _, EmptyString => EmptyString
  end.

(** [s.slice(-n)]: the last [n] characters, the whole string when it is
    shorter. *)
Definition slice_last (n : nat) (s : string) : string :=
  skip (String.length s - n) s.

(** [load(url)] *)
Definition load (url : string) : string :=
  if String.eqb (slice_last 5 url) ".json" then "{}" else "exports = 23;".

(** The identity an operation is about. *)
Definition op_id (o : Op) : string :=
  match o with
  | OpCreate id _ _ | OpGet id _ | OpSet id _ | OpCall id _ _
  | OpListen id _ _ | OpDestroy id => id
  end.

(** The operations [get], [call] and [listen]. *)
Definition log_only (o : Op) : bool :=
  match o with
  | OpGet _ _ | OpCall _ _ _ | OpListen _ _ _ => true
  | OpCreate _ _ _ | OpSet _ _ | OpDestroy _ => false
  end.


End Client.

(** ** Further methods of WidgetCollection *)

Module Members.

Import WidgetCollection.

(** [indexOf(needle)] *)
Definition indexOf (this : WidgetCollection) (needle : Widget) : Z :=
  JsString.indexOf same (_array this) needle.

(** [includes(needle)] *)
Definition includes (this : WidgetCollection) (needle : Widget) : bool :=
  negb (JsString.indexOf same (_array this) needle =? -1)%Z.

(** The objects that [next] of the iterator returns: [{value, done: false}]
    and [{done: true}]. *)
Inductive IterResult :=
| Yield (value : option Widget)
| Done.

(** [next()] of the iterator made by [[Symbol.iterator]()]; the state of the
    iterator is its [index].  [this[index]] is the element the constructor
    stored under that index, [undefined] beyond the last one. *)
Definition next (this : WidgetCollection) (index : nat) : IterResult * nat :=
  if (index <? length this)%nat
  then (Yield (_array this !! index), S index)
  else (Done, index).

(** [n] calls of [next] in a row, from the state [index]. *)
Fixpoint iterate (this : WidgetCollection) (n : nat) (index : nat)
    : list IterResult :=
  match n with
  | O => []
  | S n => let (r, index') := next this index in r :: iterate this n index'
  end.

End Members.

(** ** App: certificate pinning and fonts *)

Module Certificates.

(** An entry of [pinnedCertificates] once it is accepted: [host] and [hash]
    are strings. *)
Record Certificate := {
  host : string;
  hash : string
}.

(** The loop of the getter [$pinnedCerts] over the certificates.  [hashes]
    is a plain object: its own properties are the arrays made so far.  For
    a host that has none, [hashes[cert.host] || []] is the empty array,
    unless the host is a name of [Object.prototype]: then it is the
    built-in object found there, which has no [push], and the call
    throws. *)
Fixpoint pinned_loop (certificates : list Certificate)
    (hashes : gmap string (list string)) : Outcome (gmap string (list string)) :=
  match certificates with
  | [] => Ok hashes
  | cert :: rest =>
      match hashes !! host cert with
      | Some array =>
          pinned_loop rest (<[host cert := array ++ [hash cert]]> hashes)
      | None =>
          if inherited (host cert)
          then Throw (TypeError "hashes[cert.host].push is not a function")
          else pinned_loop rest (<[host cert := [] ++ [hash cert]]> hashes)
      end
  end.

(** The getter [$pinnedCerts]: the hashes of the certificates, by host, in
    the order of the list. *)
Definition _pinnedCerts (certificates : list Certificate)
    : Outcome (gmap string (list string)) :=
  pinned_loop certificates ∅.

(** The [certificatesReceived] event. *)
Record Event := {
  event_host : string;
  event_hashes : list string;
  defaultPrevented : bool
}.

(** [event.preventDefault()] *)
Definition preventDefault (event : Event) : Event :=
  {| event_host := event_host event; event_hashes := event_hashes event;
     defaultPrevented := true |}.

(** [event.hashes.includes(hash)] *)
Definition array_includes (array : list string) (x : string) : bool :=
  existsb (String.eqb x) array.

(** [_validateCertificate(event)].  [this.$pinnedCerts[event.host]] is the
    array of the host, or [undefined], or, under a name of
    [Object.prototype], the built-in object found there, which is truthy and
    has no [some]. *)
Definition _validateCertificate (pinnedCertificates : list Certificate)
    (event : Event) : Outcome Event :=
  match _pinnedCerts pinnedCertificates with
  | Throw e => Throw e
  | Ok table =>
      match table !! event_host event with
      | Some hashes =>
          if negb (existsb (λ hash, array_includes (event_hashes event) hash) hashes)
          then Ok (preventDefault event)
          else Ok event
      | None =>
          if inherited (event_host event)
          then Throw (TypeError "hashes.some is not a function")
          else Ok event
      end
  end.

(** A host that is not a name of [Object.prototype]. *)
Definition ordinary (host : string) : Prop := inherited host = false.

(** [CERTIFICATE_ALGORITHMS] *)
Definition CERTIFICATE_ALGORITHMS : list string :=
  ["RSA2048"; "RSA4096"; "ECDSA256"].

(** An element of the array handed to the [pinnedCertificates] property, as
    [encode] reads it: the values of [host] and [hash], and the value of
    [algorithm] when the object has that key. *)
Record CertObject := {
  cert_host : Value;
  cert_hash : Value;
  cert_algorithm : option Value
}.

(** The value handed to the property: an array of such objects, or
    something that is not an array. *)
Inductive CertInput :=
| CertArray (certificates : list CertObject)
| NotArray (v : Value).

Section Encode.

(** [toValueString] of the console module, on any value. *)
Variable toValueString : Value → string.

(** [tabris.device.platform] *)
Variable platform : string.

(** The checks of [encode] on one certificate. *)
Definition check (cert : CertObject) : Outcome unit :=
  match cert_host cert with
  | VStr host =>
      match cert_hash cert with
      | VStr hash =>
          if negb (String.prefix "sha256/" hash) then
            Throw (Error ("Invalid hash " +:+ toValueString (cert_hash cert)
                            +:+ " for pinned certificate " +:+ host))
          else if String.eqb platform "iOS" then
            match cert_algorithm cert with
            | None =>
                Throw (Error ("Missing algorithm for pinned certificate " +:+ host))
            | Some (VStr algorithm) =>
                if (JsString.indexOf String.eqb CERTIFICATE_ALGORITHMS algorithm =? -1)%Z
                then Throw (Error ("Invalid algorithm "
                                     +:+ toValueString (VStr algorithm)
                                     +:+ " for pinned certificate " +:+ host))
                else Ok tt
            | Some algorithm =>
                Throw (Error ("Invalid algorithm " +:+ toValueString algorithm
                                +:+ " for pinned certificate " +:+ host))
            end
          else Ok tt
      | hash =>
          Throw (Error ("Invalid hash " +:+ toValueString hash
                          +:+ " for pinned certificate " +:+ host))
      end
  | host => Throw (Error ("Invalid host " +:+ toValueString host))
  end.

(** The loop of [encode] over the certificates. *)
Fixpoint check_all (certificates : list CertObject) : Outcome unit :=
  match certificates with
  | [] => Ok tt
  | cert :: rest =>
      match check cert with
      | Throw e => Throw e
      | Ok _ => check_all rest
      end
  end.

(** [encode(certificates)] of the [pinnedCertificates] property. *)
Definition encode (certificates : CertInput) : Outcome CertInput :=
  match certificates with
  | NotArray _ => Throw (Error "Not an Array")
  | CertArray l =>
      match check_all l with
      | Throw e => Throw e
      | Ok _ => Ok certificates
      end
  end.

(** A certificate that [encode] lets through. *)
Definition acceptable (cert : CertObject) : Prop :=
  ∃ host hash,
    cert_host cert = VStr host ∧ cert_hash cert = VStr hash ∧
    String.prefix "sha256/" hash = true ∧
    (platform = "iOS" →
     ∃ algorithm, cert_algorithm cert = Some (VStr algorithm) ∧
                  algorithm ∈ CERTIFICATE_ALGORITHMS).

End Encode.

End Certificates.

Module Fonts.

Section RegisterFont.

(** The state that native calls act on. *)
Context {St : Type}.

(** [this._nativeCall(method, parameters)] of the native object the app
    extends; the parameters are the fields of the object literal. *)
Variable _nativeCall : string → list (string * Value) → M St unit.

(** [toValueString] of the console module, on any value. *)
Variable toValueString : Value → string.

(** [arguments[i]] *)
Definition argument (arguments : list Value) (i : nat) : Value :=
  default VUndefined (arguments !! i).

(** [registerFont(alias, file)], called with the list [arguments]. *)
Definition registerFont (arguments : list Value) : M St unit :=
  let alias := argument arguments 0 in
  let file := argument arguments 1 in
  if (List.length arguments <? 2)%nat then
    throw (Error "Not enough arguments to register a font")
  else
    match alias with
    | VStr _ =>
        match file with
        | VStr _ => _nativeCall "registerFont" [("alias", alias); ("file", file)]
        | _ => throw (Error ("Invalid file path: " +:+ toValueString file
                               +:+ " is not a string"))
        end
    | _ => throw (Error ("Invalid alias: " +:+ toValueString alias
                           +:+ " is not a string"))
    end.

End RegisterFont.

End Fonts.

(** ** Chained bulk calls and further sample data *)

Module Chaining.

Import WidgetCollection.

Section Chain.

Context {St Args : Type}.
Variable widget_method : MethodName → Widget → Args → M St unit.

(** [<first>.<m>(arguments)]: the call of a bulk method on what an earlier
    call returned; on [undefined] the property access throws. *)
Definition and_then (first : M St Returned) (m : MethodName) (arguments : Args)
    : M St Returned :=
  r ← first;
  match r with
  | ReturnedThis collection => bulk widget_method m collection arguments
  | ReturnedUndefined => throw (TypeError "Cannot read properties of undefined")
  end.

End Chain.

End Chaining.

Module MoreSamples.

(** The class [Button]: a constructor whose prototype chain passes
    [Widget.prototype] and [NativeObject.prototype]. *)
Definition Button : Function :=
  {| apply := λ _, false;
     prototype_chain := ["Button"; "Widget"; "NativeObject"; "Object"] |}.

(** An arrow function used as a predicate: it has no [prototype]. *)
Definition has_id : Function :=
  {| apply := λ w, bool_decide (id w ≠ None); prototype_chain := [] |}.

End MoreSamples.

(** * Properties *)

(** ** The recording client *)

Section ClientStubFacts.

Import ClientStub.

Lemma world_eta (w : World) :
  {| heap := heap w; _calls := _calls w; _objects := _objects w;
     pending := pending w |} = w.
Proof. by destruct w. Qed.

Lemma read_properties_frame (x : Found) (w : World) :
  (read_properties x w).1 = w.
Proof. destruct x as [o|[[]|n]]; reflexivity. Qed.

Lemma object_assign_frame (target : Value) (source : option ref) (w : World) :
  _calls (object_assign target source w).1 = _calls w ∧
  pending (object_assign target source w).1 = pending w ∧
  _objects (object_assign target source w).1 = _objects w.
Proof.
  destruct target, source; try done.
  cbv [object_assign mbind M_bind bind gets]. by destruct (existsb _ _).
Qed.

(** An id that [$objects] has no own property for and inherits nothing
    under. *)
Lemma in_objects_false (objects : gmap string ObjectRecord) (id : string) :
  in_objects objects id = false →
  objects !! id = None ∧ inherits objects id = false ∧ id ≠ "__proto__".
Proof.
  unfold in_objects. rewrite orb_false_iff. intros [H1 H2].
  apply bool_decide_eq_false in H1. split; [|split; [done|]].
  - destruct (objects !! id); [|done]. destruct H1. by eexists.
  - intros ->. unfold inherits in H2. rewrite orb_false_iff in H2.
    destruct H2 as [_ H2]. vm_compute in H2. discriminate.
Qed.



Lemma in_objects_own (objects : gmap string ObjectRecord) (id : string)
    (o : ObjectRecord) :
  objects !! id = Some o →
  in_objects objects id = true ∧ lookup_objects objects id = FoundRecord o.
Proof.
  intros H. unfold in_objects, lookup_objects. rewrite H.
  by rewrite bool_decide_eq_true_2 by eauto.
Qed.

(** [set] on an id that is [in] [$objects]: after the log entry, the
    property read and the assignment. *)
Lemma set_known (w : World) (id : string) (source : option ref) :
  in_objects (_objects w) id = true →
  set id source w
  = (target ← read_properties (lookup_objects (_objects w) id);
     object_assign target source)
      (set_calls (_calls w ++ [CSet id source]) w).
Proof.
  intros H. cbv [set push modify gets mbind M_bind bind].
  cbn [set_calls _objects]. rewrite H. reflexivity.
Qed.

(** [set] on an id that is not [in] [$objects]. *)
Lemma set_fresh (w : World) (id : string) (source : option ref) :
  in_objects (_objects w) id = false →
  set id source w
  = ({| heap := <[fresh (dom (heap w)) :=
                    match source with
                    | Some s => deref (heap w) s ∪ ∅
                    | None => ∅
                    end]> (heap w);
        _calls := _calls w ++ [CSet id source];
        _objects := <[id := {| type := None;
                               properties_of := Some (fresh (dom (heap w))) |}]>
                      (_objects w);
        pending := pending w |}, Ok tt).
Proof.
  intros Hnot. set (r := fresh (dom (heap w))).
  assert (Hfresh : heap w !! r = None) by (apply not_elem_of_dom, is_fresh).
  cbv [set push modify gets mbind M_bind bind alloc_empty].
  cbn [set_calls set_objects set_heap _objects _calls heap pending].
  rewrite Hnot. cbn [negb].
  cbn [set_calls set_objects set_heap _objects _calls heap pending].
  unfold lookup_objects. rewrite lookup_insert_eq.
  cbn [read_properties properties_of of_opt_ref object_assign].
  fold r. destruct source as [p|]; cbv [ret object_assign modify]; cbn; [|done].
  unfold deref. rewrite lookup_total_insert_eq, insert_insert_eq.
  destruct (decide (p = r)) as [->|Hne].
  - rewrite lookup_total_insert_eq, (lookup_total_alt (heap w)), Hfresh. done.
  - by rewrite lookup_total_insert_ne.
Qed.

Lemma set_frame (w : World) (id : string) (source : option ref) :
  _calls (set id source w).1 = _calls w ++ [CSet id source] ∧
  pending (set id source w).1 = pending w.
Proof.
  destruct (in_objects (_objects w) id) eqn:E.
  - rewrite (set_known w id source E). cbv [mbind M_bind bind].
    pose proof (read_properties_frame (lookup_objects (_objects w) id)
                  (set_calls (_calls w ++ [CSet id source]) w)) as Hr.
    destruct (read_properties _ _) as [w' [target|e]]; cbn in Hr; subst w'.
    + destruct (object_assign_frame target source
                  (set_calls (_calls w ++ [CSet id source]) w)) as (-> & -> & _).
      done.
    + done.
  - by rewrite (set_fresh w id source E).
Qed.

Lemma issue_calls (o : Op) (w : World) :
  _calls (issue o w).1 = _calls w ++ [record_of o].
Proof.
  destruct o as [i t p|i p|i p|i m p|i e l|i]; try reflexivity.
  apply set_frame.
Qed.

Lemma issue_pending (o : Op) (w : World) :
  pending (issue o w).1 = pending w.
Proof.
  destruct o as [i t p|i p|i p|i m p|i e l|i]; try reflexivity.
  apply set_frame.
Qed.

Lemma issue_all_snoc (ops : list Op) (o : Op) (w : World) :
  issue_all (ops ++ [o]) w = (issue o (issue_all ops w)).1.
Proof. unfold issue_all. by rewrite fold_left_app. Qed.

Lemma issue_all_calls (ops : list Op) (w : World) :
  _calls (issue_all ops w) = _calls w ++ map record_of ops.
Proof.
  induction ops as [|o ops IH] using rev_ind.
  - cbn. by rewrite app_nil_r.
  - rewrite issue_all_snoc, issue_calls, IH, map_app, <- app_assoc. done.
Qed.

Lemma issue_all_pending (ops : list Op) (w : World) :
  pending (issue_all ops w) = pending w.
Proof.
  induction ops as [|o ops IH] using rev_ind; [done|].
  by rewrite issue_all_snoc, issue_pending.
Qed.

(** With nothing buffered in the bridge, [flush] changes nothing. *)
Lemma flush_idle (w : World) : pending w = [] → flush w = (w, Ok tt).
Proof.
  intros H. cbv [flush gets modify mbind M_bind bind]. rewrite H. cbn.
  unfold set_pending. by rewrite <- H, world_eta.
Qed.

Lemma strict_eq_read_spec (v : Value) (r : Read) :
  strict_eq_read v r = true ↔ r = Data v.
Proof.
  destruct r as [v'|n]; cbn; [|done].
  unfold strict_eq. rewrite bool_decide_eq_true. naive_solver.
Qed.

(** The loop of [select] decides the spec's reading of a filter. *)
Lemma matches_filter_Matches (f : Obj) (c : Call) :
  matches_filter (Some f) c = bool_decide (Matches f c).
Proof.
  unfold matches_filter, Matches.
  destruct (forallb _ _) eqn:E; symmetry.
  - apply bool_decide_eq_true. intros k v Hk.
    rewrite forallb_forall in E.
    apply elem_of_map_to_list, list_elem_of_In in Hk.
    specialize (E _ Hk). cbn in E. by apply strict_eq_read_spec in E.
  - apply bool_decide_eq_false. intros HM.
    apply not_true_iff_false in E. apply E.
    apply forallb_forall. intros [k v] Hin.
    apply list_elem_of_In, elem_of_map_to_list in Hin.
    cbn. apply strict_eq_read_spec. by apply HM.
Qed.

Lemma select_filter (log : list Call) (f : Obj) :
  select log (Some f) = filter (Matches f) log.
Proof.
  unfold select. induction log as [|c log IH]; [done|].
  cbn [List.filter]. rewrite matches_filter_Matches, IH.
  rewrite filter_cons. case_bool_decide; case_decide; done.
Qed.

Lemma select_all (log : list Call) : select log None = log.
Proof.
  unfold select. induction log as [|c log IH]; [done|].
  cbn. by rewrite IH.
Qed.

(** C1. Log ordering.  After any sequence of operations issued through the
    client (the bridge holding nothing back), [calls()] returns the records
    of the log in the order the operations were issued: what was logged
    before, followed by one record per operation.  [calls(filter)] returns
    the ordered subsequence of the records [c] such that, for every key and
    value of the filter, the field [c[key]] is that value; a key the filter
    does not hold constrains nothing. *)
Theorem calls_log_ordering (w : World) (ops : list Op) :
  pending w = [] →
  let w' := issue_all ops w in
  calls None w' = (w', Ok (_calls w ++ map record_of ops)) ∧
  ∀ f : Obj,
    calls (Some f) w'
    = (w', Ok (filter (Matches f) (_calls w ++ map record_of ops))).
Proof.
  intros Hidle w'.
  assert (Hflush : flush w' = (w', Ok tt)).
  { apply flush_idle. unfold w'. by rewrite issue_all_pending. }
  assert (Hlog : _calls w' = _calls w ++ map record_of ops)
    by apply issue_all_calls.
  split; [|intros f];
    cbv [calls mbind M_bind bind gets ret]; rewrite Hflush, Hlog.
  - by rewrite select_all.
  - by rewrite select_filter.
Qed.

Lemma calls_log_ordering_witness :
  let ops := [OpCreate "w1" "Button" (Some 1%positive);
              OpSet "w1" (Some 2%positive);
              OpSet "w2" (Some 2%positive);
              OpDestroy "w1"] in
  let w' := issue_all ops (new ∅) in
  calls None w' = (w', Ok ([] ++ map record_of ops)) ∧
  ∀ f : Obj,
    calls (Some f) w' = (w', Ok (filter (Matches f) ([] ++ map record_of ops))).
Proof. exact (calls_log_ordering (new ∅) _ eq_refl). Defined.

(** [calls({op: 'set', id: 'w1'})] on a small log. *)
Example calls_set_w1 :
  let ops := [OpCreate "w1" "Button" (Some 1%positive);
              OpSet "w1" (Some 2%positive);
              OpSet "w2" (Some 2%positive);
              OpGet "w1" "text";
              OpSet "w1" None] in
  (calls (Some {[ "op" := VStr "set"; "id" := VStr "w1" ]})
     (issue_all ops (new ∅))).2
  = Ok [CSet "w1" (Some 2%positive); CSet "w1" None].
Proof. vm_compute. reflexivity. Qed.

Lemma properties_idle (w : World) (id : string) :
  pending w = [] →
  properties id w
  = if in_objects (_objects w) id
    then read_properties (lookup_objects (_objects w) id) w
    else (w, Throw (Error ("No object with id " +:+ id))).
Proof.
  intros H. cbv [properties mbind M_bind bind gets].
  rewrite (flush_idle w H). by destruct (in_objects (_objects w) id).
Qed.

Lemma properties_own (w : World) (id : string) (o : ObjectRecord) :
  pending w = [] → _objects w !! id = Some o →
  properties id w = (w, Ok (of_opt_ref (properties_of o))).
Proof.
  intros H Ho. rewrite properties_idle by done.
  by destruct (in_objects_own _ _ _ Ho) as [-> ->].
Qed.


Lemma create_objects (w : World) (id type : string) (p : option ref) :
  _objects (create id type p w).1
  = <[id := {| ClientStub.type := Some type; properties_of := p |}]> (_objects w).
Proof. reflexivity. Qed.

Lemma destroy_world (w : World) (id : string) :
  destroy id w
  = ({| heap := heap w; _calls := _calls w ++ [CDestroy id];
        _objects := delete_objects id (_objects w); pending := pending w |},
     Ok tt).
Proof. reflexivity. Qed.





(** The property mapping that the example of the spec ends with. *)
Example properties_text_b :
  let h : Heap := {[ 1%positive := {[ "text" := VStr "a" ]};
                     2%positive := {[ "text" := VStr "b" ]} ]} in
  let w2 := (set "w1" (Some 2%positive)
               (create "w1" "Button" (Some 1%positive) (new h)).1).1 in
  deref (heap w2) 1%positive !! "text" = Some (VStr "b").
Proof. vm_compute. reflexivity. Qed.

(** C3, as the code has it.  [destroy(id)] on an id without a record does
    not fail: it logs the [destroy] entry and returns, and the store of
    records is what it was. *)
Theorem destroy_unknown_is_logged (w : World) (id : string) :
  _objects w !! id = None →
  destroy id w = (set_calls (_calls w ++ [CDestroy id]) w, Ok tt).
Proof.
  intros H. rewrite destroy_world. unfold set_calls, delete_objects.
  destruct (String.eqb id "__proto__"); [done|]. by rewrite delete_id.
Qed.

Lemma destroy_unknown_is_logged_witness :
  destroy "w1" (new ∅) = (set_calls ([] ++ [CDestroy "w1"]) (new ∅), Ok tt).
Proof. exact (destroy_unknown_is_logged (new ∅) "w1" eq_refl). Defined.

(** C3 fails as stated: on a fresh client, which has no record for ["w1"],
    [destroy("w1")] completes normally instead of throwing. *)
Lemma destroy_unknown_does_not_throw :
  _objects (new ∅) !! "w1" = None ∧
  ¬ ∃ w' e, destroy "w1" (new ∅) = (w', Throw e).
Proof.
  split; [reflexivity|]. intros (w' & e & H).
  vm_compute in H. discriminate.
Qed.




End ClientStubFacts.

(** ** The selector engine *)

Section SelectorFacts.

Import WidgetCollection.

(** Induction on a widget with the property known for all its children. *)
Lemma Widget_children_ind (P : Widget → Prop) :
  (∀ c i cl cn pr ch, Forall P ch → P (MkWidget c i cl cn pr ch)) →
  ∀ w, P w.
Proof.
  intros step.
  fix IH 1. intros [c i cl cn pr ch]. apply step.
  induction ch as [|x ch IHch]; constructor; [apply IH | exact IHch].
Qed.

Lemma indexOf_lower {A} (eqb : A → A → bool) (l : list A) (x : A) :
  (-1 ≤ indexOf eqb l x)%Z.
Proof.
  induction l as [|y l IH]; cbn; [lia|].
  destruct (eqb y x); [lia|].
  destruct (Z.eqb_spec (indexOf eqb l x) (-1)); lia.
Qed.

Lemma indexOf_absent {A} (eqb : A → A → bool) (l : list A) (x : A) :
  indexOf eqb l x = (-1)%Z ↔ Forall (λ y, eqb y x = false) l.
Proof.
  induction l as [|y l IH]; cbn.
  - split; [constructor | done].
  - pose proof (indexOf_lower eqb l x) as Hlow.
    destruct (eqb y x) eqn:E.
    + split; [lia|]. intros H. apply Forall_cons in H as [H _]. congruence.
    + destruct (Z.eqb_spec (indexOf eqb l x) (-1)) as [Hi|Hi].
      * split; [|done]. intros _. constructor; [done|]. by apply IH.
      * split; [lia|]. intros H. apply Forall_cons in H as [_ H].
        apply IH in H. done.
Qed.

Lemma indexOf_string (l : list string) (x : string) :
  (indexOf String.eqb l x =? -1)%Z = false ↔ x ∈ l.
Proof.
  rewrite Z.eqb_neq, indexOf_absent.
  rewrite Forall_forall. split.
  - intros H. destruct (decide (x ∈ l)) as [|Hn]; [done|].
    exfalso. apply H. intros y Hy. apply String.eqb_neq. intros ->. done.
  - intros Hx H. specialize (H x Hx). rewrite String.eqb_refl in H. done.
Qed.

Lemma indexOf_widget (l : list Widget) (x : Widget) :
  indexOf same l x = (-1)%Z ↔ cid x ∉ map cid l.
Proof.
  rewrite indexOf_absent, Forall_forall. unfold same. split.
  - intros H Hin. apply list_elem_of_fmap in Hin as (y & Hy & Hin).
    specialize (H y Hin). apply String.eqb_neq in H. congruence.
  - intros H y Hy. apply String.eqb_neq. intros E. apply H.
    apply list_elem_of_fmap. exists y. done.
Qed.

(** C7. String selectors.  ['*'] matches every proxy; ['#' + rest] matches
    the proxies whose [id] is [rest]; ['.' + rest] matches the proxies whose
    [classList] has [rest] among its members; a string that is not ['*'] and
    starts with neither ['#'] nor ['.'] matches the proxies whose
    constructor name is that string. *)
Theorem createMatcher_string (w : Widget) :
  createMatcher (SelString "*") w = true ∧
  (∀ rest, createMatcher (SelString (String "#" rest)) w = true
           ↔ id w = Some rest) ∧
  (∀ rest, createMatcher (SelString (String "." rest)) w = true
           ↔ rest ∈ classList w) ∧
  (∀ s, s ≠ "*" → charAt0 s ≠ "#" → charAt0 s ≠ "." →
        createMatcher (SelString s) w = true ↔ constructor_name w = s).
Proof.
  split; [done|]. split; [|split].
  - intros rest. cbn. rewrite bool_decide_eq_true. naive_solver.
  - intros rest. cbn. rewrite negb_true_iff. apply indexOf_string.
  - intros s Hstar Hhash Hdot. unfold createMatcher.
    apply String.eqb_neq in Hstar, Hhash, Hdot.
    rewrite Hhash, Hdot, Hstar, String.eqb_eq. naive_solver.
Qed.

Lemma createMatcher_string_witness :
  "Button" ≠ "*" ∧ charAt0 "Button" ≠ "#" ∧ charAt0 "Button" ≠ "." ∧
  (createMatcher (SelString "Button") Sample.c = true
   ↔ constructor_name Sample.c = "Button") ∧
  (createMatcher (SelString "#x") Sample.a = true ↔ id Sample.a = Some "x") ∧
  (createMatcher (SelString ".y") Sample.b = true ↔ "y" ∈ classList Sample.b).
Proof.
  assert (H1 : "Button" ≠ "*") by discriminate.
  assert (H2 : charAt0 "Button" ≠ "#") by discriminate.
  assert (H3 : charAt0 "Button" ≠ ".") by discriminate.
  split; [exact H1|]. split; [exact H2|]. split; [exact H3|].
  split; [|split].
  - exact (proj2 (proj2 (proj2 (createMatcher_string Sample.c))) "Button" H1 H2 H3).
  - exact (proj1 (proj2 (createMatcher_string Sample.a)) "x").
  - exact (proj1 (proj2 (proj2 (createMatcher_string Sample.b))) "y").
Defined.

Lemma deepSelect_visit_preorder (filter : Filter) (w : Widget) :
  ∀ acc, deepSelect_visit filter w acc = fold_left (step filter) (preorder w) acc.
Proof.
  induction w as [c i cl cn pr ch IH] using Widget_children_ind.
  intros acc. cbn [deepSelect_visit preorder fold_left].
  unfold step at 2.
  destruct (filter _ acc.2) as [hit matches].
  set (acc' := (if hit then _ else _, matches)).
  assert (Hch : ∀ a, fold_left (λ acc child, deepSelect_visit filter child acc) ch a
                     = fold_left (step filter) (flat_map preorder ch) a).
  { clear acc acc'. induction IH as [|x ch Hx _ IHch]; intros a; [done|].
    cbn [fold_left flat_map]. rewrite fold_left_app, Hx. apply IHch. }
  destruct ch as [|x ch]; [done|].
  change (0 <? List.length (x :: ch))%nat with true. cbv iota. apply Hch.
Qed.

Lemma deepSelect_preorder (filter : Filter) (iterable result : list Widget)
    (matches : Matches) :
  deepSelect result iterable filter matches
  = fold_left (step filter) (flat_map preorder iterable) (result, matches).
Proof.
  unfold deepSelect. generalize (result, matches).
  induction iterable as [|w l IH]; intros acc; [done|].
  cbn [fold_left flat_map].
  by rewrite fold_left_app, deepSelect_visit_preorder, IH.
Qed.

Lemma fold_step_array_filter (filter : Filter) (l result : list Widget)
    (matches : Matches) :
  fold_left (step filter) l (result, matches)
  = (result ++ (array_filter filter l matches).1, (array_filter filter l matches).2).
Proof.
  revert result matches.
  induction l as [|w l IH]; intros result matches; cbn [fold_left array_filter].
  - by rewrite app_nil_r.
  - unfold step at 2. cbn [fst snd].
    destruct (filter w matches) as [hit m'].
    rewrite IH. destruct (array_filter filter l m') as [kept final].
    destruct hit; cbn [fst snd]; [by rewrite <- app_assoc | done].
Qed.

(** With the filter of [getFilter], [array.filter] keeps the widgets that
    pass the test of the selector, each [cid] at its first hit only. *)
Lemma array_filter_getFilter (selector : Selector) (l : list Widget)
    (matches : Matches) :
  (array_filter (getFilter selector) l matches).1
  = first_occurrences matches (List.filter (test selector) l).
Proof.
  revert matches.
  induction l as [|w l IH]; intros matches; [done|].
  cbn [array_filter List.filter].
  assert (Hf : getFilter selector w matches
               = if bool_decide (cid w ∈ matches) then (false, matches)
                 else if test selector w then (true, {[cid w]} ∪ matches)
                 else (false, matches)).
  { unfold getFilter, test. destruct selector as [s|fn]; [done|].
    cbn [isFilter]. by destruct (negb (isWidgetConstructor fn)). }
  rewrite Hf. clear Hf.
  destruct (test selector w) eqn:Ht; cbn [first_occurrences];
    case_bool_decide.
  - specialize (IH matches). destruct (array_filter _ l matches). done.
  - specialize (IH ({[cid w]} ∪ matches)).
    destruct (array_filter _ l _). cbn in *. by rewrite IH.
  - specialize (IH matches). destruct (array_filter _ l matches). done.
  - specialize (IH matches). destruct (array_filter _ l matches). done.
Qed.

Lemma first_occurrences_NoDup (seen : Matches) (l : list Widget) :
  NoDup (map cid (first_occurrences seen l)) ∧
  ∀ x, x ∈ map cid (first_occurrences seen l) → x ∉ seen.
Proof.
  revert seen. induction l as [|w l IH]; intros seen; cbn.
  - split; [constructor | intros x Hx; by apply elem_of_nil in Hx].
  - case_bool_decide as Hw; [apply IH|].
    destruct (IH ({[cid w]} ∪ seen)) as [Hnd Hout]. cbn. split.
    + constructor; [|done]. intros Hin. apply Hout in Hin. set_solver.
    + intros x Hx. apply elem_of_cons in Hx as [->|Hx]; [done|].
      apply Hout in Hx. set_solver.
Qed.

Lemma first_occurrences_id (seen : Matches) (l : list Widget) :
  NoDup (map cid l) → (∀ x, x ∈ map cid l → x ∉ seen) →
  first_occurrences seen l = l.
Proof.
  revert seen. induction l as [|w l IH]; intros seen Hnd Hout; [done|].
  cbn in *. apply NoDup_cons in Hnd as [Hw Hnd].
  rewrite bool_decide_eq_false_2 by (apply Hout; left).
  f_equal. apply IH; [done|].
  intros x Hx. specialize (Hout x (list_elem_of_further _ _ _ Hx)).
  set_solver.
Qed.

Lemma NoDup_cid_filter (p : Widget → bool) (l : list Widget) :
  NoDup (map cid l) → NoDup (map cid (List.filter p l)).
Proof.
  induction l as [|w l IH]; [done|]. cbn. intros Hnd.
  apply NoDup_cons in Hnd as [Hw Hnd].
  destruct (p w); [|by apply IH]. cbn. constructor; [|by apply IH].
  intros Hin. apply Hw.
  apply list_elem_of_fmap in Hin as (y & Hy & Hin).
  apply list_elem_of_fmap. exists y. split; [done|].
  apply list_elem_of_In in Hin. apply filter_In in Hin as [Hin _].
  by apply list_elem_of_In.
Qed.

(** What [select] computes, case by case. *)
Lemma select_deep (array : list Widget) (selector : Selector) :
  select array selector true
  = first_occurrences ∅ (List.filter (test selector) (flat_map preorder array)).
Proof.
  unfold select. destruct array as [|w l]; [done|].
  change (List.length (w :: l) =? 0)%nat with false. cbv iota.
  rewrite andb_false_r.
  rewrite deepSelect_preorder, fold_step_array_filter. cbn [fst app].
  apply array_filter_getFilter.
Qed.

Lemma select_shallow (array : list Widget) (selector : Selector) :
  is_star selector = false →
  select array selector false
  = first_occurrences ∅ (List.filter (test selector) array).
Proof.
  intros Hs. unfold select. destruct array as [|w l]; [done|].
  change (List.length (w :: l) =? 0)%nat with false. cbv iota.
  rewrite Hs. cbn [andb]. apply array_filter_getFilter.
Qed.

Lemma select_star (array : list Widget) :
  select array (SelString "*") false = array.
Proof. by destruct array. Qed.

Lemma children_array (this : WidgetCollection) :
  _array (children this None) = flat_map Widget.children (_array this).
Proof.
  unfold children, new. cbn [_array or_star]. rewrite select_star.
  generalize (_array this). intros l.
  assert (H : ∀ acc, fold_left (λ result widget, result ++ Widget.children widget) l acc
                     = acc ++ flat_map Widget.children l).
  { induction l as [|w l IH]; intros acc; cbn; [by rewrite app_nil_r|].
    by rewrite IH, app_assoc. }
  apply H.
Qed.

Lemma new_deep (array : list Widget) (selector : option Selector) :
  NoDup (map cid (_array (new array selector true))).
Proof.
  unfold new. cbn [_array]. rewrite select_deep.
  apply first_occurrences_NoDup.
Qed.

Lemma new_shallow (array : list Widget) (selector : option Selector) :
  is_star (or_star selector) = false →
  NoDup (map cid (_array (new array selector false))).
Proof.
  intros H. unfold new. cbn [_array]. rewrite select_shallow by done.
  apply first_occurrences_NoDup.
Qed.

Lemma parent_result_NoDup (parent_of : Widget → option Widget) (l acc : list Widget) :
  NoDup (map cid acc) →
  NoDup (map cid
    (fold_left
      (λ result widget,
         match parent_of widget with
         | Some parent =>
             if (indexOf same result parent =? -1)%Z then result ++ [parent]
             else result
         | None => result
         end) l acc)).
Proof.
  revert acc. induction l as [|w l IH]; intros acc Hacc; [done|].
  cbn [fold_left]. apply IH.
  destruct (parent_of w) as [p|]; [|done].
  destruct (Z.eqb_spec (indexOf same acc p) (-1)) as [E|E]; [|done].
  apply indexOf_widget in E.
  rewrite map_app. cbn. apply NoDup_app. split; [done|]. split.
  - intros x Hx Hp. apply list_elem_of_singleton in Hp as ->. done.
  - apply NoDup_singleton.
Qed.

Lemma or_star_is_star (selector : option Selector) :
  is_star (or_star selector) = true → or_star selector = SelString "*".
Proof.
  destruct selector as [[s|fn]|]; cbn; try done.
  destruct s as [|c s]; [done|]. cbn [is_star]. intros H.
  apply String.eqb_eq in H. by rewrite H.
Qed.

(** C4, as the code has it.  A collection holds each proxy identity at most
    once when it is built by a deep selection ([find], or construction with
    [deep] set), by a shallow selection with a selector other than ['*']
    (construction, [filter] or [children] with such a selector), or by
    [parent].  A shallow selection with ['*'] or without a selector is a
    copy of the array it is given. *)
Theorem selection_no_duplicates :
  (∀ array selector deep,
     deep = true ∨ is_star (or_star selector) = false →
     NoDup (map cid (_array (new array selector deep)))) ∧
  (∀ this selector,
     is_star (or_star selector) = false →
     NoDup (map cid (_array (filter this selector))) ∧
     NoDup (map cid (_array (children this selector)))) ∧
  (∀ this selector, NoDup (map cid (_array (find this selector)))) ∧
  (∀ parent_of this parents,
     parent parent_of this = Some parents →
     NoDup (map cid (_array parents))) ∧
  (∀ array selector,
     is_star (or_star selector) = true →
     _array (new array selector false) = array).
Proof.
  split; [|split; [|split; [|split]]]; [| split | | |].
  - intros array selector [|] H; [apply new_deep|].
    apply new_shallow. by destruct H.
  - by apply new_shallow.
  - by apply new_shallow.
  - intros this selector. apply new_deep.
  - intros parent_of this parents. unfold parent.
    destruct (0 <? _)%nat; [|done]. intros [= <-].
    unfold new. cbn [_array or_star]. rewrite select_star.
    apply parent_result_NoDup. constructor.
  - intros array selector H. unfold new. cbn [_array].
    rewrite (or_star_is_star _ H). apply select_star.
Qed.

Lemma selection_no_duplicates_witness :
  NoDup (map cid (_array (new [Sample.c; Sample.a; Sample.c]
                            (Some (SelString "Button")) false))) ∧
  NoDup (map cid (_array (filter {| _array := [Sample.b; Sample.b] |}
                            (Some (SelString ".y"))))) ∧
  NoDup (map cid (_array (find {| _array := [Sample.root; Sample.inner] |} None))) ∧
  NoDup (map cid (_array {| _array := [Sample.root; Sample.inner] |})).
Proof.
  split; [|split; [|split]].
  - apply (proj1 selection_no_duplicates). right. reflexivity.
  - apply (proj1 (proj2 selection_no_duplicates)). reflexivity.
  - apply (proj1 (proj2 (proj2 selection_no_duplicates))).
  - apply (proj1 (proj2 (proj2 (proj2 selection_no_duplicates))) Sample.parent_of
             {| _array := [Sample.a; Sample.c; Sample.b] |}).
    reflexivity.
Defined.

(** C4 fails as stated: a collection built from an array that holds the
    same proxy twice, without a selector, holds it twice; so does
    [children()] when a child is reached through two members. *)
Lemma shallow_star_keeps_duplicates :
  ¬ NoDup (map cid (_array (new [Sample.a; Sample.a] None false))) ∧
  ¬ NoDup (map cid (_array (children
                              {| _array := [Sample.inner; Sample.inner] |} None))).
Proof.
  split; intros H; vm_compute in H;
    apply NoDup_cons in H as [H _]; apply H; left.
Qed.

(** C6. Deep selection.  [find(selector)] visits the children of the
    members, each with its whole subtree in pre-order (a widget first, then
    the subtrees of its children from left to right, whether or not the
    widget matched), tests each widget visited against the selector and
    returns the matches in the order of the visits, a proxy that is visited
    again after it matched being passed over.  When no proxy is visited
    twice, this is the list of the visited widgets that match. *)
Theorem find_preorder (this : WidgetCollection) (selector : option Selector) :
  let visited := flat_map preorder (flat_map Widget.children (_array this)) in
  _array (find this selector)
  = first_occurrences ∅ (List.filter (test (or_star selector)) visited) ∧
  (NoDup (map cid visited) →
   _array (find this selector) = List.filter (test (or_star selector)) visited).
Proof.
  intros visited.
  assert (H : _array (find this selector)
              = first_occurrences ∅ (List.filter (test (or_star selector)) visited)).
  { unfold find, new at 1. cbn [_array]. rewrite select_deep, children_array. done. }
  split; [done|]. intros Hnd. rewrite H.
  apply first_occurrences_id; [by apply NoDup_cid_filter | set_solver].
Qed.

Lemma find_preorder_witness :
  let this := {| _array := [Sample.root] |} in
  let visited := flat_map preorder (flat_map Widget.children (_array this)) in
  NoDup (map cid visited) ∧
  _array (find this (Some (SelString "Button")))
  = List.filter (test (or_star (Some (SelString "Button")))) visited.
Proof.
  assert (Hnd : NoDup (map cid (flat_map preorder
                 (flat_map Widget.children [Sample.root])))).
  { apply (bool_decide_unpack _). vm_compute. exact I. }
  split; [exact Hnd|].
  exact (proj2 (find_preorder {| _array := [Sample.root] |}
                  (Some (SelString "Button"))) Hnd).
Defined.

(** The selections of the spec on the sample tree. *)
Example find_on_sample :
  let this := {| _array := [Sample.root] |} in
  map cid (_array (find this None)) = ["a"; "inner"; "c"; "b"] ∧
  map cid (_array (find this (Some (SelString "#x")))) = ["a"] ∧
  map cid (_array (find this (Some (SelString ".y")))) = ["b"] ∧
  map cid (_array (find this (Some (SelString "Button")))) = ["c"].
Proof. vm_compute. done. Qed.

(** A member that is a descendant of another member is visited as such; a
    proxy visited a second time is passed over. *)
Example find_nested_members :
  map cid (_array (find {| _array := [Sample.root; Sample.inner] |} None))
  = ["a"; "inner"; "c"; "b"].
Proof. vm_compute. done. Qed.

End SelectorFacts.

(** ** Bulk dispatch *)

Section DispatchFacts.

Import WidgetCollection.

Context {St Args : Type}.
Variable widget_method : MethodName → Widget → Args → M St unit.

Lemma bulk_forEach (m : MethodName) (this : WidgetCollection) (arguments : Args) :
  bulk widget_method m this arguments
  = (forEach (λ widget, widget_method m widget arguments) (_array this) ;;
     mret (returned m this)).
Proof. by destruct m. Qed.

Lemma forEach_all_succeed (m : MethodName) (array : list Widget)
    (arguments : Args) (s : St) :
  all_succeed widget_method m array arguments s →
  forEach (λ widget, widget_method m widget arguments) array s
  = (apply_to_all widget_method m array arguments s, Ok tt).
Proof.
  revert s. induction array as [|w l IH]; intros s H; [done|].
  cbn in *. unfold bind.
  destruct (widget_method m w arguments s) as [s' [[]|e]]; [|done].
  by apply IH.
Qed.

Lemma forEach_failing (m : MethodName) (before after : list Widget)
    (failing : Widget) (arguments : Args) (s s' : St) (e : Exn) :
  all_succeed widget_method m before arguments s →
  widget_method m failing arguments
    (apply_to_all widget_method m before arguments s) = (s', Throw e) →
  forEach (λ widget, widget_method m widget arguments)
    (before ++ failing :: after) s = (s', Throw e).
Proof.
  revert s. induction before as [|w l IH]; intros s Hok Hfail; cbn in *.
  - unfold bind. by rewrite Hfail.
  - unfold bind. destruct (widget_method m w arguments s) as [s1 [[]|e1]]; [|done].
    by apply IH.
Qed.

(** C9, as the code has it.  When no call on a member throws, each of
    [set], [on], [off], [once], [trigger], [animate] and [dispose] calls the
    method of that name with the arguments it was given on every member, in
    the order of the collection, each call starting from the state the call
    before it left; [set], [on], [off], [once] and [trigger] then return the
    collection itself and [animate] and [dispose] return nothing. *)
Theorem bulk_dispatch_order (m : MethodName) (this : WidgetCollection)
    (arguments : Args) (s : St) :
  all_succeed widget_method m (_array this) arguments s →
  bulk widget_method m this arguments s
  = (apply_to_all widget_method m (_array this) arguments s,
     Ok (match m with
         | m_set | m_on | m_off | m_once | m_trigger => ReturnedThis this
         | m_animate | m_dispose => ReturnedUndefined
         end)).
Proof.
  intros H. rewrite bulk_forEach. cbv [mbind M_bind bind mret M_ret ret].
  rewrite (forEach_all_succeed _ _ _ _ H). by destruct m.
Qed.

(** C5, as the code has it.  When the call on a member throws, the calls on
    the members before it having returned, the bulk method throws that very
    exception in the state that call left: the failure is not swallowed,
    and no member after the failing one is called. *)
Theorem bulk_dispatch_failure (m : MethodName) (before after : list Widget)
    (failing : Widget) (arguments : Args) (s s' : St) (e : Exn) :
  all_succeed widget_method m before arguments s →
  widget_method m failing arguments
    (apply_to_all widget_method m before arguments s) = (s', Throw e) →
  bulk widget_method m {| _array := before ++ failing :: after |} arguments s
  = (s', Throw e).
Proof.
  intros Hok Hfail. rewrite bulk_forEach. cbv [mbind M_bind bind].
  cbn [_array]. by rewrite (forEach_failing _ _ _ _ _ _ _ _ Hok Hfail).
Qed.

End DispatchFacts.

Section DispatchSamples.

Import WidgetCollection.

Lemma bulk_dispatch_order_witness :
  bulk Sample.recording m_set {| _array := [Sample.a; Sample.c] |} [VStr "text"; VStr "v"] []
  = (apply_to_all Sample.recording m_set [Sample.a; Sample.c] [VStr "text"; VStr "v"] [],
     Ok (ReturnedThis {| _array := [Sample.a; Sample.c] |})).
Proof.
  apply (bulk_dispatch_order Sample.recording m_set
           {| _array := [Sample.a; Sample.c] |} [VStr "text"; VStr "v"] []).
  vm_compute. exact I.
Defined.

(** The trace of [set('text', 'v')] on a collection of two. *)
Example set_trace :
  (set Sample.recording {| _array := [Sample.a; Sample.c] |} [VStr "text"; VStr "v"] []).1
  = [(m_set, "a", [VStr "text"; VStr "v"]); (m_set, "c", [VStr "text"; VStr "v"])].
Proof. reflexivity. Qed.

Lemma bulk_dispatch_failure_witness :
  bulk Sample.recording m_set
    {| _array := [Sample.a] ++ Sample.b :: [Sample.c] |} [] []
  = ([(m_set, "a", []); (m_set, "b", [])], Throw (Error "b failed")).
Proof.
  apply (bulk_dispatch_failure Sample.recording m_set [Sample.a] [Sample.c]
           Sample.b [] []).
  - vm_compute. exact I.
  - reflexivity.
Defined.

(** C9 fails as stated: on the collection of [a], [b] and [c], where the
    call on [b] throws, [set] neither reaches every member nor returns the
    collection: it throws after the calls on [a] and [b]. *)
Lemma bulk_dispatch_incomplete_on_throw :
  let this := {| _array := [Sample.a; Sample.b; Sample.c] |} in
  let arguments := [VStr "text"; VStr "v"] in
  set Sample.recording this arguments []
  = ([(m_set, "a", arguments); (m_set, "b", arguments)], Throw (Error "b failed")) ∧
  set Sample.recording this arguments []
  ≠ (apply_to_all Sample.recording m_set (_array this) arguments [],
     Ok (ReturnedThis this)).
Proof. split; [reflexivity | discriminate]. Qed.

(** C5 fails as stated: on the collection of [a], [b] and [c], where the
    call on [b] throws, [set] never calls the method on [c], while calling
    it on every member would. *)
Lemma bulk_dispatch_stops_at_failure :
  let this := {| _array := [Sample.a; Sample.b; Sample.c] |} in
  ((m_set, "c", []) ∉ (set Sample.recording this [] []).1) ∧
  ((m_set, "c", []) ∈ fire_and_continue Sample.recording m_set this [] []) ∧
  ((set Sample.recording this [] []).1
   ≠ fire_and_continue Sample.recording m_set this [] []).
Proof.
  vm_compute. split; [|split].
  - intros H. repeat (apply elem_of_cons in H as [H|H]; [discriminate|]).
    by apply elem_of_nil in H.
  - do 2 right. left.
  - discriminate.
Qed.

End DispatchSamples.

(** ** Resource locations *)

Section AppFacts.

Import App.

Variable toValueString : string → string.
Variable native : string.

(** The pieces that [split] and [segments] give differ in empty pieces
    only, and start with the same piece when the split starts afresh. *)
Lemma split_from_segments (path : string) :
  (∃ segment rest rest',
     split_from path false = segment :: rest ∧
     segments path = segment :: rest' ∧
     List.filter truthy rest = List.filter truthy rest') ∧
  List.filter truthy (split_from path true) = List.filter truthy (segments path).
Proof.
  induction path as [|c path [(seg & rest & rest' & Hs & Hg & Hf) Ht]].
  - split; [by exists EmptyString, [], [] | done].
  - cbn [split_from segments]. destruct (Ascii.eqb c "/").
    + split; [|by rewrite Ht].
      exists EmptyString, (split_from path true), (segments path). done.
    + rewrite Hs, Hg. split.
      * by exists (String c seg), rest, rest'.
      * cbn. by rewrite Hf.
Qed.

Lemma split_segments_truthy (path : string) :
  List.filter truthy (split path) = List.filter truthy (segments path).
Proof.
  destruct (split_from_segments path) as [(seg & rest & rest' & Hs & Hg & Hf) _].
  unfold split. rewrite Hs, Hg. cbn. by rewrite Hf.
Qed.

Lemma In_filter_truthy (x : string) (l : list string) :
  truthy x = true → (x ∈ List.filter truthy l ↔ x ∈ l).
Proof.
  intros Hx. rewrite !list_elem_of_In, filter_In. naive_solver.
Qed.

Lemma dotdot_split_segments (path : string) :
  ".." ∈ split path ↔ ".." ∈ segments path.
Proof.
  rewrite <- (In_filter_truthy ".." (split path)) by done.
  rewrite <- (In_filter_truthy ".." (segments path)) by done.
  by rewrite split_segments_truthy.
Qed.

Lemma filter_kept_truthy (l : list string) :
  List.filter kept l
  = List.filter (λ s, negb (String.eqb s ".")) (List.filter truthy l).
Proof.
  induction l as [|x l IH]; [done|]. cbn.
  destruct x as [|c x]; [done|]. cbn [truthy List.filter].
  unfold kept at 1. cbn [String.eqb negb andb].
  destruct (negb _); by rewrite IH.
Qed.

(** The callback of [map] in [normalizePath], and what the map does. *)
Lemma map_throwing_segments (path : string) (l : list string) :
  map_throwing
    (λ segment,
       if String.eqb segment ".." then Throw (must_not_contain toValueString path)
       else if String.eqb segment "." then Ok EmptyString
       else Ok segment) l
  = if bool_decide (".." ∈ l) then Throw (must_not_contain toValueString path)
    else Ok (map (λ s, if String.eqb s "." then EmptyString else s) l).
Proof.
  induction l as [|x l IH]; [done|]. cbn [map_throwing map].
  destruct (String.eqb_spec x "..") as [->|Hx].
  - by rewrite bool_decide_eq_true_2 by left.
  - rewrite IH. destruct (decide (".." ∈ l)) as [Hin|Hin].
    + rewrite !bool_decide_eq_true_2; [|by right|done].
      by destruct (String.eqb x ".").
    + rewrite !bool_decide_eq_false_2; [|set_solver|done].
      by destruct (String.eqb x ".").
Qed.

Lemma filter_truthy_map_dot (l : list string) :
  List.filter truthy (map (λ s, if String.eqb s "." then EmptyString else s) l)
  = List.filter kept l.
Proof.
  induction l as [|x l IH]; [done|]. cbn [map List.filter]. rewrite <- IH.
  unfold kept. destruct (String.eqb_spec x ".") as [->|Hx]; [done|].
  destruct x; done.
Qed.

Lemma normalizePath_segments (path : string) :
  normalizePath toValueString path
  = if bool_decide (".." ∈ segments path)
    then Throw (must_not_contain toValueString path)
    else Ok (join "/" (List.filter kept (segments path))).
Proof.
  unfold normalizePath. rewrite map_throwing_segments.
  rewrite (bool_decide_ext _ _ (dotdot_split_segments path)).
  case_bool_decide; [done|].
  by rewrite filter_truthy_map_dot, !filter_kept_truthy, split_segments_truthy.
Qed.

Lemma append_empty (s : string) : s +:+ EmptyString = s.
Proof. induction s as [|c s IH]; [done|]. exact (f_equal (String c) IH). Qed.

(** C10. Resource locations.  On an app whose base URL is the one the
    native side gives, [getResourceLocation(path)] returns the base URL
    alone when [path] is [null] or [undefined]; it throws the error about
    [".."] when one of the slash-separated segments of the path is [".."];
    and otherwise it returns the base URL, a slash, and the segments of the
    path that are neither empty nor ["."], joined by slashes. *)
Theorem getResourceLocation_normalized (this : App) (path : option string) :
  wf native this →
  getResourceLocation toValueString native path this
  = ({| _resourceBaseUrl := Some native |},
     match path with
     | None => Ok native
     | Some path =>
         if bool_decide (".." ∈ segments path)
         then Throw (must_not_contain toValueString path)
         else Ok (native +:+ "/" +:+ join "/" (List.filter kept (segments path)))
     end).
Proof.
  intros Hwf.
  assert (Hend : ∀ this' : App,
    _resourceBaseUrl this' = Some native →
    match path with
    | Some path =>
        match normalizePath toValueString path with
        | Throw e => throw e
        | Ok normalized => ret (native +:+ "/" +:+ normalized)
        end
    | None => ret (native +:+ EmptyString)
    end this'
    = (this', match path with
              | None => Ok native
              | Some path =>
                  if bool_decide (".." ∈ segments path)
                  then Throw (must_not_contain toValueString path)
                  else Ok (native +:+ "/" +:+ join "/" (List.filter kept (segments path)))
              end)).
  { intros this' _. destruct path as [path|].
    - rewrite normalizePath_segments. by case_bool_decide.
    - cbv [ret]. by rewrite append_empty. }
  unfold getResourceLocation. cbv [mbind M_bind bind gets].
  destruct this as [[url|]]; destruct Hwf as [Hwf|Hwf]; cbn in Hwf;
    try discriminate; cbn [no_resourceBaseUrl _resourceBaseUrl].
  - injection Hwf as ->. destruct (truthy native); cbn [negb].
    + cbv [ret]. cbn [_resourceBaseUrl default]. by apply Hend.
    + unfold define_resourceBaseUrl. cbn [_resourceBaseUrl].
      rewrite String.eqb_refl. cbn [_resourceBaseUrl default]. by apply Hend.
  - unfold define_resourceBaseUrl. cbn [_resourceBaseUrl default]. by apply Hend.
Qed.

End AppFacts.

Section AppSamples.

Import App.

Lemma getResourceLocation_normalized_witness :
  wf "http://host/app" {| _resourceBaseUrl := None |} ∧
  getResourceLocation Sample.toValueString "http://host/app" (Some "a//./b/")
    {| _resourceBaseUrl := None |}
  = ({| _resourceBaseUrl := Some "http://host/app" |}, Ok "http://host/app/a/b").
Proof.
  split; [left; reflexivity|].
  exact (getResourceLocation_normalized Sample.toValueString "http://host/app"
           {| _resourceBaseUrl := None |} (Some "a//./b/") (or_introl eq_refl)).
Defined.

(** A path with a [".."] segment, and paths that only look like one. *)
Example getResourceLocation_dotdot :
  let app := {| _resourceBaseUrl := Some "base" |} in
  (getResourceLocation Sample.toValueString "base" (Some "a/../b") app).2
  = Throw (must_not_contain Sample.toValueString "a/../b") ∧
  (getResourceLocation Sample.toValueString "base" (Some "a/..b/c..") app).2
  = Ok "base/a/..b/c.." ∧
  (getResourceLocation Sample.toValueString "base" (Some EmptyString) app).2
  = Ok "base/" ∧
  (getResourceLocation Sample.toValueString "base" None app).2 = Ok "base".
Proof. vm_compute. done. Qed.

End AppSamples.

(** ** More on the recording client *)

Section ClientMore.

Import ClientStub Client.

Lemma resetCalls_idle (w : World) :
  pending w = [] → resetCalls w = (set_calls [] w, Ok tt).
Proof.
  intros H. cbv [resetCalls mbind M_bind bind modify].
  by rewrite (flush_idle w H).
Qed.

Lemma read_properties_heap (x : Found) (w w' : World) :
  heap w = heap w' → (read_properties x w).2 = (read_properties x w').2.
Proof.
  intros H. destruct x as [o|[[]|n]]; try reflexivity.
  cbv [read_properties gets]. cbn. by rewrite H.
Qed.

(** [resetCalls()] empties the log and nothing else: whatever the filter,
    [calls] then returns no record; [properties] answers for every id as it
    did before; and a second [resetCalls()] changes nothing. *)
Theorem resetCalls_clears_log_only (w : World) :
  pending w = [] →
  let w' := (resetCalls w).1 in
  (resetCalls w).2 = Ok tt ∧
  (∀ f, calls f w' = (w', Ok [])) ∧
  (∀ id, (properties id w').2 = (properties id w).2) ∧
  heap w' = heap w ∧
  resetCalls w' = (w', Ok tt).
Proof.
  intros H. rewrite (resetCalls_idle w H). cbn [fst snd].
  assert (H' : pending (set_calls [] w) = []) by done.
  split; [done|]. split; [|split; [|split]].
  - intros f. cbv [calls mbind M_bind bind gets ret].
    rewrite (flush_idle _ H'). by destruct f.
  - intros id. rewrite !properties_idle by done. cbn [_objects set_calls].
    destruct (in_objects (_objects w) id); [|done].
    by apply read_properties_heap.
  - done.
  - by rewrite (resetCalls_idle _ H').
Qed.

Lemma resetCalls_clears_log_only_witness :
  let w := issue_all [OpCreate "w1" "Button" (Some 1%positive); OpGet "w1" "text"]
             (new ∅) in
  let w' := (resetCalls w).1 in
  (resetCalls w).2 = Ok tt ∧
  (∀ f, calls f w' = (w', Ok [])) ∧
  (∀ id, (properties id w').2 = (properties id w).2) ∧
  heap w' = heap w ∧
  resetCalls w' = (w', Ok tt).
Proof.
  exact (resetCalls_clears_log_only
           (issue_all [OpCreate "w1" "Button" (Some 1%positive); OpGet "w1" "text"]
              (new ∅)) eq_refl).
Defined.

(** A run of [get], [call] and [listen] operations, however long, never
    throws and touches neither the records nor the property objects: it
    only adds its entries to the log. *)
Theorem log_only_operations (w : World) (ops : list Op) :
  forallb log_only ops = true →
  forEach issue ops w = (issue_all ops w, Ok tt) ∧
  issue_all ops w = set_calls (_calls w ++ map record_of ops) w.
Proof.
  revert w. induction ops as [|o ops IH]; intros w H.
  - split; [done|]. cbn. rewrite app_nil_r. unfold set_calls. by rewrite world_eta.
  - cbn in H. apply andb_true_iff in H as [Ho H].
    assert (Hone : issue o w = (set_calls (_calls w ++ [record_of o]) w, Ok tt))
      by (by destruct o).
    destruct (IH (set_calls (_calls w ++ [record_of o]) w) H) as [IH1 IH2].
    split.
    + cbn [forEach]. unfold bind. rewrite Hone. cbn [issue_all fold_left].
      rewrite Hone. apply IH1.
    + cbn [issue_all fold_left]. rewrite Hone. cbn [fst].
      fold (issue_all ops (set_calls (_calls w ++ [record_of o]) w)).
      rewrite IH2. unfold set_calls. cbn. by rewrite <- app_assoc.
Qed.

Lemma log_only_operations_witness :
  let w := new ∅ in
  let ops := [OpGet "w1" "text"; OpCall "w1" "focus" VUndefined;
              OpListen "w1" "tap" true] in
  forEach issue ops w = (issue_all ops w, Ok tt) ∧
  issue_all ops w = set_calls (_calls w ++ map record_of ops) w.
Proof.
  exact (log_only_operations (new ∅)
           [OpGet "w1" "text"; OpCall "w1" "focus" VUndefined;
            OpListen "w1" "tap" true] eq_refl).
Defined.

(** The entries of [_objects] other than the one an operation is about stay
    as they are. *)
Lemma other_entries (w : World) (o : Op) (k : string) :
  op_id o ≠ k → _objects (issue o w).1 !! k = _objects w !! k.
Proof.
  intros Hne. destruct o as [i t p|i p|i p|i m p|i e l|i]; cbn in Hne;
    try reflexivity.
  - cbn [issue]. rewrite create_objects. by rewrite lookup_insert_ne.
  - cbn [issue]. destruct (in_objects (_objects w) i) eqn:E.
    + rewrite (set_known w i p E). cbv [mbind M_bind bind].
      pose proof (read_properties_frame (lookup_objects (_objects w) i)
                    (set_calls (_calls w ++ [CSet i p]) w)) as Hr.
      destruct (read_properties _ _) as [w' [target|e]]; cbn in Hr; subst w';
        [|done].
      by destruct (object_assign_frame target p
                     (set_calls (_calls w ++ [CSet i p]) w)) as (_ & _ & ->).
    + rewrite (set_fresh w i p E). cbn. by rewrite lookup_insert_ne.
  - cbn [issue]. rewrite destroy_world. cbn. unfold delete_objects.
    destruct (String.eqb i "__proto__"); [done|]. by rewrite lookup_delete_ne.
Qed.

(** An operation on an identity other than ['__proto__'] does not change
    what [$objects] answers for any other identity: neither whether that
    identity is [in] [$objects] nor what is found under it. *)
Theorem other_records_untouched (w : World) (o : Op) (id : string) :
  op_id o ≠ id → op_id o ≠ "__proto__" →
  in_objects (_objects (issue o w).1) id = in_objects (_objects w) id ∧
  lookup_objects (_objects (issue o w).1) id = lookup_objects (_objects w) id.
Proof.
  intros Hid Hproto.
  unfold in_objects, inherits, lookup_objects.
  by rewrite (other_entries w o id Hid), (other_entries w o "__proto__" Hproto).
Qed.

Lemma other_records_untouched_witness :
  let w := issue_all [OpCreate "w1" "Button" (Some 1%positive)] (new ∅) in
  in_objects (_objects (issue (OpDestroy "w2") w).1) "w1" = in_objects (_objects w) "w1" ∧
  lookup_objects (_objects (issue (OpDestroy "w2") w).1) "w1"
  = lookup_objects (_objects w) "w1".
Proof.
  apply (other_records_untouched
           (issue_all [OpCreate "w1" "Button" (Some 1%positive)] (new ∅))
           (OpDestroy "w2") "w1"); vm_compute; discriminate.
Defined.

(** An operation on ['__proto__'] is another matter: [create] makes the
    record the prototype of [$objects], after which ['type'] is [in]
    [$objects] and [properties('type')] returns [undefined] where it threw
    before. *)
Example create_proto_changes_other_ids :
  let w := (create "__proto__" "Button" (Some 1%positive) (new ∅)).1 in
  (properties "type" (new ∅)).2 = Throw (Error "No object with id type") ∧
  (properties "type" w).2 = Ok VUndefined.
Proof. vm_compute. done. Qed.



(** A second [create] for an id replaces its record: [properties] then
    returns the property object of the second call, the object of the first
    call is left as it was, and the log holds both entries. *)
Theorem create_replaces_record (w : World) (id t1 t2 : string)
    (p1 p2 : option ref) :
  pending w = [] →
  let w2 := (create id t2 p2 (create id t1 p1 w).1).1 in
  properties id w2 = (w2, Ok (of_opt_ref p2)) ∧
  _objects w2 !! id = Some {| type := Some t2; properties_of := p2 |} ∧
  heap w2 = heap w ∧
  _calls w2 = _calls w ++ [CCreate id t1 p1; CCreate id t2 p2].
Proof.
  intros Hidle w2.
  assert (Hrec : _objects w2 !! id
                 = Some {| type := Some t2; properties_of := p2 |})
    by (unfold w2; rewrite create_objects; apply lookup_insert_eq).
  split; [|split; [done|split; [done|]]].
  - by rewrite (properties_own _ id {| type := Some t2; properties_of := p2 |}).
  - unfold w2. cbv [create push modify mbind M_bind bind]. cbn.
    by rewrite <- app_assoc.
Qed.

Lemma create_replaces_record_witness :
  let w2 := (create "w1" "TextView" (Some 2%positive)
               (create "w1" "Button" (Some 1%positive) (new ∅)).1).1 in
  properties "w1" w2 = (w2, Ok (of_opt_ref (Some 2%positive))) ∧
  _objects w2 !! "w1"
  = Some {| type := Some "TextView"; properties_of := Some 2%positive |} ∧
  heap w2 = heap (new ∅) ∧
  _calls w2 = _calls (new ∅) ++ [CCreate "w1" "Button" (Some 1%positive);
                                 CCreate "w1" "TextView" (Some 2%positive)].
Proof.
  exact (create_replaces_record (new ∅) "w1" "Button" "TextView"
           (Some 1%positive) (Some 2%positive) eq_refl).
Defined.



(** After a [create] without a property object, a [set] on the same id
    throws a [TypeError]; by then its entry is in the log, and the record
    and the property objects are what they were. *)
Theorem set_after_create_without_properties (w : World) (id type : string)
    (properties : option ref) :
  set id properties (create id type None w).1
  = ({| heap := heap w;
        _calls := _calls w ++ [CCreate id type None; CSet id properties];
        _objects := <[id := {| ClientStub.type := Some type; properties_of := None |}]>
                      (_objects w);
        pending := pending w |},
     Throw (TypeError "Cannot convert undefined or null to object")).
Proof.
  set (o := {| ClientStub.type := Some type; properties_of := None |}).
  assert (Ho : _objects (create id type None w).1 !! id = Some o)
    by (rewrite create_objects; apply lookup_insert_eq).
  destruct (in_objects_own _ _ _ Ho) as [Hin Hlook].
  rewrite (set_known _ id properties Hin), Hlook.
  cbv [mbind M_bind bind read_properties ret object_assign throw create push
       modify].
  cbn. by rewrite <- app_assoc.
Qed.




(** [calls({constructor: undefined})] finds no record, [calls({type:
    undefined})] finds the records without a [type]. *)
Example calls_inherited_key :
  let w := issue_all [OpCreate "w1" "Button" None; OpSet "w1" None] (new ∅) in
  (calls (Some {[ "constructor" := VUndefined ]}) w).2 = Ok [] ∧
  (calls (Some {[ "type" := VUndefined ]}) w).2 = Ok [CSet "w1" None].
Proof. vm_compute. done. Qed.

Lemma skip_length_append (p s : string) : skip (String.length p) (p +:+ s) = s.
Proof. induction p as [|c p IH]; [done|]. exact IH. Qed.

Lemma skip_is_suffix (n : nat) (s : string) : ∃ p, s = p +:+ skip n s.
Proof.
  revert s. induction n as [|n IH]; intros s.
  - by exists EmptyString.
  - destruct s as [|c s]; [by exists EmptyString|].
    destruct (IH s) as [p Hp]. exists (String c p).
    cbn [skip]. exact (f_equal (String c) Hp).
Qed.

Lemma length_append (p s : string) :
  String.length (p +:+ s) = (String.length p + String.length s)%nat.
Proof.
  induction p as [|c p IH]; [done|].
  change (S (String.length (p +:+ s)) = S (String.length p + String.length s)).
  by rewrite IH.
Qed.

(** [load(url)] answers with the empty JSON object for the urls that end in
    [".json"], and with the one-line script for all the others. *)
Theorem load_by_extension (url : string) :
  ((∃ prefix, url = prefix +:+ ".json") → load url = "{}") ∧
  ((¬ ∃ prefix, url = prefix +:+ ".json") → load url = "exports = 23;").
Proof.
  unfold load, slice_last. split.
  - intros [prefix ->]. rewrite length_append.
    replace (String.length prefix + String.length ".json" - 5)%nat
      with (String.length prefix) by (cbn; lia).
    by rewrite skip_length_append.
  - intros Hno. destruct (String.eqb_spec (skip (String.length url - 5) url) ".json")
      as [E|E]; [|done].
    exfalso. apply Hno.
    destruct (skip_is_suffix (String.length url - 5) url) as [p Hp].
    exists p. by rewrite E in Hp.
Qed.

Lemma load_by_extension_witness :
  load "package.json" = "{}" ∧ load "json" = "exports = 23;".
Proof.
  split.
  - apply (proj1 (load_by_extension "package.json")). by exists "package".
  - apply (proj2 (load_by_extension "json")). intros [p Hp].
    apply (f_equal String.length) in Hp. rewrite length_append in Hp.
    cbn in Hp. lia.
Defined.

End ClientMore.

(** ** More on collections *)

Section CollectionMore.

Import WidgetCollection.

Lemma first_occurrences_sublist (seen : Matches) (l : list Widget) :
  sublist (first_occurrences seen l) l.
Proof.
  revert seen. induction l as [|w l IH]; intros seen; cbn; [constructor|].
  case_bool_decide; [apply sublist_cons | apply sublist_skip]; apply IH.
Qed.

Lemma List_filter_sublist {A} (p : A → bool) (l : list A) :
  sublist (List.filter p l) l.
Proof.
  induction l as [|x l IH]; cbn; [constructor|].
  destruct (p x); [by apply sublist_skip | by apply sublist_cons].
Qed.

Lemma List_filter_Forall {A} (p : A → bool) (l : list A) :
  Forall (λ x, p x = true) (List.filter p l).
Proof.
  induction l as [|x l IH]; cbn; [constructor|].
  destruct (p x) eqn:E; [by constructor | done].
Qed.

Lemma List_filter_all {A} (p : A → bool) (l : list A) :
  Forall (λ x, p x = true) l → List.filter p l = l.
Proof.
  induction 1 as [|x l Hx _ IH]; cbn; [done|]. by rewrite Hx, IH.
Qed.

Lemma collection_eq (c1 c2 : WidgetCollection) :
  _array c1 = _array c2 → c1 = c2.
Proof. destruct c1, c2. cbn. by intros ->. Qed.

(** The selector in force is ['*'] or it is not. *)
Lemma or_star_cases (selector : option Selector) :
  or_star selector = SelString "*" ∨ is_star (or_star selector) = false.
Proof.
  destruct (is_star (or_star selector)) eqn:E; [left | by right].
  by apply or_star_is_star.
Qed.

Lemma test_star (w : Widget) : test (SelString "*") w = true.
Proof. reflexivity. Qed.

(** What a shallow selection holds, whatever the selector. *)
Lemma new_shallow_array (array : list Widget) (selector : option Selector) :
  _array (new array selector false)
  = if is_star (or_star selector) then array
    else first_occurrences ∅ (List.filter (test (or_star selector)) array).
Proof.
  unfold new. cbn [_array].
  destruct (or_star_cases selector) as [E|E].
  - rewrite E. cbn [is_star String.eqb Ascii.eqb Bool.eqb]. apply select_star.
  - rewrite E. by apply select_shallow.
Qed.

Lemma new_shallow_pass (array : list Widget) (selector : option Selector) :
  Forall (λ w, test (or_star selector) w = true)
    (_array (new array selector false)).
Proof.
  rewrite new_shallow_array.
  destruct (or_star_cases selector) as [E|E]; rewrite E.
  - cbn [is_star String.eqb Ascii.eqb Bool.eqb].
    apply Forall_forall. intros w _. apply test_star.
  - apply Forall_forall. intros w Hw.
    eapply elem_of_sublist in Hw; [|apply first_occurrences_sublist].
    by eapply Forall_forall in Hw; [|apply List_filter_Forall].
Qed.

(** [filter(selector)] keeps members of the collection, in their order, and
    only members that pass the test of the selector. *)
Theorem filter_keeps_members (this : WidgetCollection) (selector : option Selector) :
  sublist (_array (filter this selector)) (_array this) ∧
  Forall (λ w, test (or_star selector) w = true) (_array (filter this selector)).
Proof.
  split; [|apply new_shallow_pass].
  unfold filter. rewrite new_shallow_array.
  destruct (or_star_cases selector) as [E|E]; rewrite E.
  - done.
  - etrans; [apply first_occurrences_sublist | apply List_filter_sublist].
Qed.

(** Filtering twice with the same selector gives what filtering once
    gives. *)
Theorem filter_idempotent (this : WidgetCollection) (selector : option Selector) :
  filter (filter this selector) selector = filter this selector.
Proof.
  apply collection_eq. unfold filter at 1. rewrite new_shallow_array.
  destruct (is_star (or_star selector)) eqn:E; [done|].
  pose proof (new_shallow_pass (_array this) selector) as Hall.
  fold (filter this selector) in Hall.
  rewrite (List_filter_all _ _ Hall).
  apply first_occurrences_id; [|set_solver].
  unfold filter. rewrite new_shallow_array, E.
  apply first_occurrences_NoDup.
Qed.

Lemma head_first_occurrences (l : list Widget) :
  head (first_occurrences ∅ l) = head l.
Proof. destruct l as [|w l]; [done|]. cbn. by rewrite bool_decide_eq_false_2. Qed.

Lemma head_List_filter {A} (p : A → bool) (l : list A) :
  head (List.filter p l) = List.find p l.
Proof. induction l as [|x l IH]; [done|]. cbn. by destruct (p x). Qed.

(** [first(selector)] is the first member that passes the test of the
    selector, and [undefined] when there is none; without a selector it is
    the first member, and [undefined] on an empty collection. *)
Theorem first_is_first_match (this : WidgetCollection) (selector : option Selector) :
  first this selector = List.find (test (or_star selector)) (_array this).
Proof.
  assert (Hstar : head (_array this) = List.find (test (SelString "*")) (_array this))
    by (by destruct (_array this)).
  assert (Hfilter : head (_array (filter this selector))
                    = List.find (test (or_star selector)) (_array this)).
  { unfold filter. rewrite new_shallow_array.
    destruct (or_star_cases selector) as [E|E]; rewrite E.
    - exact Hstar.
    - by rewrite head_first_occurrences, head_List_filter. }
  destruct selector as [[[|c s]|fn]|]; try exact Hfilter; exact Hstar.
Qed.

Lemma last_List_filter {A} (p : A → bool) (l : list A) :
  List.last (Some <$> List.filter p l) None = List.find p (rev l).
Proof.
  induction l as [|x l IH] using rev_ind; [done|].
  rewrite List.filter_app, rev_app_distr, fmap_app. cbn.
  destruct (p x); cbn.
  - apply last_last.
  - by rewrite app_nil_r.
Qed.

(** In a collection without repeated proxies, [last(selector)] is the last
    member that passes the test of the selector, and [undefined] when there
    is none. *)
Theorem last_is_last_match (this : WidgetCollection) (selector : option Selector) :
  NoDup (map cid (_array this)) →
  last this selector = List.find (test (or_star selector)) (rev (_array this)).
Proof.
  intros Hnd.
  assert (Hstar : List.last (Some <$> _array this) None
                  = List.find (test (SelString "*")) (rev (_array this))).
  { rewrite <- last_List_filter. by rewrite List_filter_all
      by (apply Forall_forall; intros; apply test_star). }
  assert (Hfilter : List.last (Some <$> _array (filter this selector)) None
                    = List.find (test (or_star selector)) (rev (_array this))).
  { unfold filter. rewrite new_shallow_array.
    destruct (or_star_cases selector) as [E|E]; rewrite E.
    - exact Hstar.
    - rewrite first_occurrences_id;
        [apply last_List_filter | by apply NoDup_cid_filter | set_solver]. }
  destruct selector as [[[|c s]|fn]|]; try exact Hfilter; exact Hstar.
Qed.

Lemma last_is_last_match_witness :
  let this := {| _array := [Sample.a; Sample.c; Sample.b] |} in
  last this (Some (SelString "TextView"))
  = List.find (test (or_star (Some (SelString "TextView")))) (rev (_array this)).
Proof.
  apply (last_is_last_match {| _array := [Sample.a; Sample.c; Sample.b] |}
           (Some (SelString "TextView"))).
  apply (bool_decide_unpack _). vm_compute. exact I.
Defined.

(** With a proxy held twice, [last(selector)] can miss the last member that
    matches: the second occurrence is dropped before the last is taken. *)
Example last_with_repeated_member :
  let this := {| _array := [Sample.a; Sample.b; Sample.a] |} in
  cid <$> last this (Some (SelString "TextView")) = Some "b" ∧
  cid <$> last this None = Some "a".
Proof. vm_compute. done. Qed.

Lemma indexOf_found {A} (eqb : A → A → bool) (l : list A) (x : A) :
  (0 ≤ JsString.indexOf eqb l x)%Z →
  ∃ y, l !! Z.to_nat (JsString.indexOf eqb l x) = Some y ∧ eqb y x = true ∧
       ∀ j z, (j < Z.to_nat (JsString.indexOf eqb l x))%nat →
              l !! j = Some z → eqb z x = false.
Proof.
  induction l as [|y l IH]; cbn; [lia|].
  destruct (eqb y x) eqn:E.
  - intros _. exists y. cbn. split; [done|]. split; [done|]. lia.
  - pose proof (indexOf_lower eqb l x) as Hlow.
    destruct (Z.eqb_spec (JsString.indexOf eqb l x) (-1)) as [Hi|Hi]; [lia|].
    intros _. destruct IH as (z & Hz & Hzx & Hbefore); [lia|].
    replace (Z.to_nat (JsString.indexOf eqb l x + 1))
      with (S (Z.to_nat (JsString.indexOf eqb l x))) by lia.
    exists z. cbn. split; [done|]. split; [done|].
    intros [|j] v Hj Hv; cbn in Hv; [by injection Hv as <-|].
    apply (Hbefore j v); [lia | done].
Qed.

(** [includes(needle)] tells whether the proxy is a member.  [indexOf] is
    [-1] exactly when it is not; otherwise it is the position of the
    needle's first occurrence: the member there is the needle, and no
    member before it is. *)
Theorem indexOf_first_occurrence (this : WidgetCollection) (needle : Widget) :
  let i := Members.indexOf this needle in
  (Members.includes this needle = true ↔ cid needle ∈ map cid (_array this)) ∧
  (i = (-1)%Z ↔ cid needle ∉ map cid (_array this)) ∧
  ((-1 ≤ i < Z.of_nat (length this))%Z) ∧
  (i ≠ (-1)%Z →
   ∃ w, _array this !! Z.to_nat i = Some w ∧ cid w = cid needle ∧
        ∀ j v, (j < Z.to_nat i)%nat → _array this !! j = Some v →
               cid v ≠ cid needle).
Proof.
  intros i. unfold i, Members.indexOf, Members.includes, length.
  pose proof (indexOf_lower same (_array this) needle) as Hlow.
  pose proof (indexOf_widget (_array this) needle) as Habsent.
  assert (Hfound : JsString.indexOf same (_array this) needle ≠ (-1)%Z →
    ∃ w, _array this !! Z.to_nat (JsString.indexOf same (_array this) needle) = Some w
         ∧ cid w = cid needle
         ∧ ∀ j v, (j < Z.to_nat (JsString.indexOf same (_array this) needle))%nat →
                  _array this !! j = Some v → cid v ≠ cid needle).
  { intros Hi. destruct (indexOf_found same (_array this) needle) as (w & Hw & Hs & Hb);
      [lia|].
    exists w. split; [done|]. split; [by apply String.eqb_eq in Hs|].
    intros j v Hj Hv. specialize (Hb j v Hj Hv). by apply String.eqb_neq in Hb. }
  split; [|split; [done|split; [|done]]].
  - rewrite negb_true_iff, Z.eqb_neq, Habsent.
    split; [apply dec_stable | by intros ? ?].
  - split; [lia|].
    destruct (decide (JsString.indexOf same (_array this) needle = (-1)%Z)) as [->|Hi];
      [lia|].
    destruct (Hfound Hi) as (w & Hw & _). apply lookup_lt_Some in Hw. lia.
Qed.

Lemma indexOf_first_occurrence_witness :
  let this := {| _array := [Sample.a; Sample.c; Sample.b; Sample.c] |} in
  Members.indexOf this Sample.c ≠ (-1)%Z ∧
  ∃ w, _array this !! Z.to_nat (Members.indexOf this Sample.c) = Some w ∧
       cid w = cid Sample.c ∧
       ∀ j v, (j < Z.to_nat (Members.indexOf this Sample.c))%nat →
              _array this !! j = Some v → cid v ≠ cid Sample.c.
Proof.
  assert (H : Members.indexOf {| _array := [Sample.a; Sample.c; Sample.b; Sample.c] |}
                Sample.c ≠ (-1)%Z) by (vm_compute; discriminate).
  split; [exact H|].
  exact (proj2 (proj2 (proj2 (indexOf_first_occurrence
           {| _array := [Sample.a; Sample.c; Sample.b; Sample.c] |} Sample.c))) H).
Defined.

(** [children(selector)] is [children()] filtered by the selector. *)
Theorem children_then_filter (this : WidgetCollection) (selector : option Selector) :
  children this selector = filter (children this None) selector ∧
  _array (children this None) = flat_map Widget.children (_array this).
Proof.
  split; [|apply children_array].
  unfold filter. rewrite children_array. unfold children. f_equal.
  generalize (_array this). intros l.
  assert (H : ∀ acc, fold_left (λ result widget, result ++ Widget.children widget) l acc
                     = acc ++ flat_map Widget.children l).
  { induction l as [|w l IH]; intros acc; cbn; [by rewrite app_nil_r|].
    by rewrite IH, app_assoc. }
  apply H.
Qed.

Lemma parent_fold (parent_of : Widget → option Widget) (l acc : list Widget) :
  fold_left
    (λ result widget,
       match parent_of widget with
       | Some parent =>
           if (JsString.indexOf same result parent =? -1)%Z then result ++ [parent]
           else result
       | None => result
       end) l acc
  = acc ++ first_occurrences (list_to_set (map cid acc)) (omap parent_of l).
Proof.
  revert acc. induction l as [|w l IH]; intros acc; cbn [fold_left omap].
  - cbn. by rewrite app_nil_r.
  - rewrite IH. cbn. destruct (parent_of w) as [p|] eqn:Ep; [|done].
    change (list_omap Widget Widget parent_of l) with (omap parent_of l).
    cbn [first_occurrences].
    destruct (Z.eqb_spec (JsString.indexOf same acc p) (-1)) as [E|E].
    + apply indexOf_widget in E.
      rewrite bool_decide_eq_false_2 by (by rewrite elem_of_list_to_set).
      rewrite <- app_assoc. cbn. do 3 f_equal.
      rewrite map_app. cbn. apply set_eq. intros x.
      rewrite elem_of_union, !elem_of_list_to_set, elem_of_app, elem_of_singleton,
        list_elem_of_singleton. tauto.
    + rewrite bool_decide_eq_true_2; [done|].
      rewrite elem_of_list_to_set. apply dec_stable. intros Hn.
      by apply indexOf_widget in Hn.
Qed.

(** [parent()] returns nothing when no member has a parent; otherwise it
    holds the parents of the members in the order in which they are first
    met, each one once. *)
Theorem parent_in_order_of_discovery (parent_of : Widget → option Widget)
    (this : WidgetCollection) :
  parent parent_of this
  = match omap parent_of (_array this) with
    | [] => None
    | parents => Some {| _array := first_occurrences ∅ parents |}
    end.
Proof.
  unfold parent. rewrite parent_fold. cbn [app map].
  change (list_to_set []) with (∅ : Matches).
  destruct (omap parent_of (_array this)) as [|p l] eqn:E; [done|].
  cbn [first_occurrences]. rewrite bool_decide_eq_false_2 by set_solver.
  cbn [List.length Nat.ltb Nat.leb].
  unfold new. cbn [or_star]. by rewrite select_star.
Qed.

Lemma iterate_from (this : WidgetCollection) (n index : nat) :
  Members.iterate this n index
  = ((λ w, Members.Yield (Some w)) <$> take n (drop index (_array this)))
    ++ replicate (n - (length this - index)) Members.Done.
Proof.
  revert index. induction n as [|n IH]; intros index; [done|].
  cbn [Members.iterate]. unfold Members.next, length in *.
  destruct (Nat.ltb_spec index (List.length (_array this))) as [Hlt|Hge].
  - destruct (lookup_lt_is_Some_2 _ _ Hlt) as [w Hw].
    rewrite IH, Hw. rewrite (drop_S _ _ _ Hw). cbn.
    do 2 f_equal. f_equal. lia.
  - rewrite IH. rewrite !drop_ge by lia. rewrite !take_nil. cbn.
    replace (List.length (_array this) - index)%nat with 0%nat by lia.
    replace (List.length (_array this) - S index)%nat with 0%nat by lia.
    by rewrite !Nat.sub_0_r.
Qed.

(** The iterator of a collection yields the members in order, one for each
    call of [next], and answers [done] to every call after the last
    member. *)
Theorem iterator_yields_members (this : WidgetCollection) (n : nat) :
  Members.iterate this n 0
  = ((λ w, Members.Yield (Some w)) <$> take n (_array this))
    ++ replicate (n - length this) Members.Done.
Proof. rewrite iterate_from. by rewrite drop_0, Nat.sub_0_r. Qed.

(** A function given as selector: a constructor whose prototype chain
    reaches [NativeObject.prototype] selects its instances; any other
    function is called on each member and selects those for which it
    answers with a truthy value. *)
Theorem function_selectors (this : WidgetCollection) (fn : Function) :
  (isWidgetConstructor fn = true →
   _array (filter this (Some (SelFunction fn)))
   = first_occurrences ∅ (List.filter (λ w, instanceof w fn) (_array this))) ∧
  (isWidgetConstructor fn = false →
   _array (filter this (Some (SelFunction fn)))
   = first_occurrences ∅ (List.filter (apply fn) (_array this))).
Proof.
  unfold filter. rewrite new_shallow_array. cbn [or_star is_star].
  unfold test. cbn [isFilter createMatcher].
  split; intros ->; reflexivity.
Qed.

Lemma function_selectors_witness :
  let this := {| _array := [Sample.a; Sample.c; Sample.b] |} in
  _array (filter this (Some (SelFunction MoreSamples.Button)))
  = first_occurrences ∅
      (List.filter (λ w, instanceof w MoreSamples.Button) (_array this)) ∧
  _array (filter this (Some (SelFunction MoreSamples.has_id)))
  = first_occurrences ∅ (List.filter (apply MoreSamples.has_id) (_array this)).
Proof.
  split.
  - exact (proj1 (function_selectors {| _array := [Sample.a; Sample.c; Sample.b] |}
                    MoreSamples.Button) eq_refl).
  - exact (proj2 (function_selectors {| _array := [Sample.a; Sample.c; Sample.b] |}
                    MoreSamples.has_id) eq_refl).
Defined.

(** The two selections on the sample members. *)
Example function_selectors_sample :
  let this := {| _array := [Sample.a; Sample.c; Sample.b] |} in
  cid <$> _array (filter this (Some (SelFunction MoreSamples.Button))) = ["c"] ∧
  cid <$> _array (filter this (Some (SelFunction MoreSamples.has_id))) = ["a"].
Proof. vm_compute. done. Qed.

End CollectionMore.

Section ChainingFacts.

Import WidgetCollection Chaining.

Context {St Args : Type}.
Variable widget_method : MethodName → Widget → Args → M St unit.

(** Chained bulk calls.  After [set], [on], [off], [once] or [trigger],
    a second bulk method runs on the same collection: every member gets the
    first call before any member gets the second.  After [animate] or
    [dispose] there is nothing to call the second method on: the chain
    throws a [TypeError] once the first round is over, and no member gets
    the second call. *)
Theorem chained_bulk_calls (m1 m2 : MethodName) (this : WidgetCollection)
    (a1 a2 : Args) (s : St) :
  all_succeed widget_method m1 (_array this) a1 s →
  let s1 := apply_to_all widget_method m1 (_array this) a1 s in
  (returned m1 this = ReturnedThis this →
   all_succeed widget_method m2 (_array this) a2 s1 →
   and_then widget_method (bulk widget_method m1 this a1) m2 a2 s
   = (apply_to_all widget_method m2 (_array this) a2 s1, Ok (returned m2 this))) ∧
  (returned m1 this = ReturnedUndefined →
   and_then widget_method (bulk widget_method m1 this a1) m2 a2 s
   = (s1, Throw (TypeError "Cannot read properties of undefined"))).
Proof.
  intros H1 s1.
  assert (Hfirst : bulk widget_method m1 this a1 s = (s1, Ok (returned m1 this))).
  { rewrite bulk_forEach. cbv [mbind M_bind bind mret M_ret ret].
    by rewrite (forEach_all_succeed _ _ _ _ _ H1). }
  unfold and_then. cbv [mbind M_bind].
  split; intros Hr; unfold bind at 1; rewrite Hfirst, Hr; [|done].
  intros H2. rewrite bulk_forEach. cbv [mbind M_bind bind mret M_ret ret].
  by rewrite (forEach_all_succeed _ _ _ _ _ H2).
Qed.

End ChainingFacts.

Section ChainingSamples.

Import WidgetCollection Chaining.

Lemma chained_bulk_calls_witness :
  let this := {| _array := [Sample.a; Sample.c] |} in
  and_then Sample.recording (bulk Sample.recording m_set this [VStr "text"])
    m_on [VStr "tap"] []
  = ([(m_set, "a", [VStr "text"]); (m_set, "c", [VStr "text"]);
      (m_on, "a", [VStr "tap"]); (m_on, "c", [VStr "tap"])],
     Ok (ReturnedThis this)) ∧
  and_then Sample.recording (bulk Sample.recording m_dispose this [])
    m_set [VStr "text"] []
  = ([(m_dispose, "a", []); (m_dispose, "c", [])],
     Throw (TypeError "Cannot read properties of undefined")).
Proof.
  split.
  - apply (proj1 (chained_bulk_calls Sample.recording m_set m_on
                    {| _array := [Sample.a; Sample.c] |} [VStr "text"] [VStr "tap"] []
                    ltac:(vm_compute; exact I)));
      [reflexivity | vm_compute; exact I].
  - apply (proj2 (chained_bulk_calls Sample.recording m_dispose m_set
                    {| _array := [Sample.a; Sample.c] |} [] [VStr "text"] []
                    ltac:(vm_compute; exact I))).
    reflexivity.
Defined.

End ChainingSamples.

(** ** More on paths *)

Section PathMore.

Import App.

Variable toValueString : string → string.

(** Every piece that [segments] gives is free of slashes: it is its own and
    only segment. *)
Lemma segments_pieces (path : string) :
  Forall (λ x, segments x = [x]) (segments path).
Proof.
  induction path as [|c path IH]; [by constructor|].
  cbn [segments]. destruct (Ascii.eqb c "/") eqn:Ec.
  - by constructor.
  - destruct (segments path) as [|seg others].
    { constructor; [|constructor]. cbn [segments]. by rewrite Ec. }
    apply Forall_cons in IH as [Hseg Hothers]. constructor; [|done].
    cbn [segments]. by rewrite Ec, Hseg.
Qed.

Lemma segments_nonempty (path : string) : segments path ≠ [].
Proof.
  destruct path as [|c path]; [done|]. cbn [segments].
  destruct (Ascii.eqb c "/"); [done|]. by destruct (segments path).
Qed.

Lemma segments_before_slash (x rest : string) :
  segments x = [x] → segments (x +:+ String "/" rest) = x :: segments rest.
Proof.
  induction x as [|c x IH]; [done|].
  change (String c x +:+ String "/" rest) with (String c (x +:+ String "/" rest)).
  cbn [segments]. destruct (Ascii.eqb c "/"); [done|].
  pose proof (segments_nonempty x) as Hne.
  destruct (segments x) as [|seg others] eqn:E; [done|].
  intros [= <- ->]. by rewrite IH.
Qed.

Lemma segments_join (l : list string) :
  Forall (λ x, segments x = [x]) l → l ≠ [] → segments (join "/" l) = l.
Proof.
  induction 1 as [|x l Hx Hl IH]; [done|]. intros _.
  destruct l as [|y l]; [done|].
  change (join "/" (x :: y :: l)) with (x +:+ String "/" (join "/" (y :: l))).
  rewrite (segments_before_slash _ _ Hx). by rewrite IH.
Qed.

Lemma kept_spec (x : string) :
  kept x = true ↔ x ≠ EmptyString ∧ x ≠ ".".
Proof.
  unfold kept. rewrite andb_true_iff, !negb_true_iff, !String.eqb_neq. done.
Qed.

(** What a normalized path is made of. *)
Lemma normalized_segments (path : string) :
  ".." ∉ segments path →
  let l := List.filter kept (segments path) in
  (l = [] ∧ join "/" l = EmptyString) ∨
  (segments (join "/" l) = l ∧
   Forall (λ x, x ≠ EmptyString ∧ x ≠ "." ∧ x ≠ "..") l).
Proof.
  intros Hno l. destruct l as [|x l'] eqn:E; [by left|right].
  rewrite <- E. split.
  - apply segments_join; [|by rewrite E].
    apply Forall_forall. intros y Hy. unfold l in Hy.
    apply list_elem_of_In, filter_In in Hy as [Hy _].
    pose proof (segments_pieces path) as Hp.
    rewrite Forall_forall in Hp. by apply Hp, list_elem_of_In.
  - apply Forall_forall. intros y Hy. unfold l in Hy.
    apply list_elem_of_In, filter_In in Hy as [Hy Hk].
    apply kept_spec in Hk as [? ?]. split; [done|]. split; [done|].
    intros ->. by apply Hno, list_elem_of_In.
Qed.

(** [normalizePath] leaves its own results alone: a path it returns is
    returned unchanged when it is normalized again. *)
Theorem normalizePath_idempotent (path normalized : string) :
  normalizePath toValueString path = Ok normalized →
  normalizePath toValueString normalized = Ok normalized.
Proof.
  rewrite !normalizePath_segments. case_bool_decide as Hno; [done|].
  intros [= <-].
  destruct (normalized_segments path Hno) as [[-> ->]|[Hseg Hall]]; [done|].
  rewrite Hseg. rewrite bool_decide_eq_false_2.
  - f_equal. f_equal. apply List_filter_all. apply Forall_forall.
    intros x Hx. rewrite Forall_forall in Hall.
    apply kept_spec. by destruct (Hall x Hx) as (? & ? & ?).
  - intros Hin. rewrite Forall_forall in Hall.
    by destruct (Hall _ Hin) as (_ & _ & ?).
Qed.

(** A path that [normalizePath] returns is empty, or it is made of
    segments none of which is empty, ["."] or [".."]: it neither starts nor
    ends with a slash and has no two slashes in a row. *)
Theorem normalizePath_shape (path normalized : string) :
  normalizePath toValueString path = Ok normalized →
  normalized = EmptyString ∨
  Forall (λ x, x ≠ EmptyString ∧ x ≠ "." ∧ x ≠ "..") (segments normalized).
Proof.
  rewrite normalizePath_segments. case_bool_decide as Hno; [done|].
  intros [= <-].
  destruct (normalized_segments path Hno) as [[_ ->]|[Hseg Hall]]; [by left|].
  right. by rewrite Hseg.
Qed.

End PathMore.

Section PathSamples.

Import App.

Lemma normalizePath_idempotent_witness :
  normalizePath Sample.toValueString "/a//./b/" = Ok "a/b" ∧
  normalizePath Sample.toValueString "a/b" = Ok "a/b".
Proof.
  assert (H : normalizePath Sample.toValueString "/a//./b/" = Ok "a/b")
    by reflexivity.
  split; [exact H|].
  exact (normalizePath_idempotent Sample.toValueString "/a//./b/" "a/b" H).
Defined.

Lemma normalizePath_shape_witness :
  normalizePath Sample.toValueString "/a//./b/" = Ok "a/b" ∧
  ("a/b" = EmptyString ∨
   Forall (λ x, x ≠ EmptyString ∧ x ≠ "." ∧ x ≠ "..") (segments "a/b")).
Proof.
  assert (H : normalizePath Sample.toValueString "/a//./b/" = Ok "a/b")
    by reflexivity.
  split; [exact H|].
  exact (normalizePath_shape Sample.toValueString "/a//./b/" "a/b" H).
Defined.

End PathSamples.

(** ** Certificate pinning *)

Section CertificateFacts.

Import Certificates.

(** The hashes gathered for a host by the loop, when every host is
    ordinary. *)
Lemma pinned_loop_ordinary (certificates : list Certificate)
    (acc : gmap string (list string)) :
  Forall (λ cert, ordinary (host cert)) certificates →
  ∃ table, pinned_loop certificates acc = Ok table ∧
    ∀ h, table !! h
         = match List.filter (λ cert, String.eqb (host cert) h) certificates with
           | [] => acc !! h
           | pinned => Some (default [] (acc !! h) ++ (hash <$> pinned))
           end.
Proof.
  intros Hall. revert acc.
  induction Hall as [|cert l Hc _ IH]; intros acc; [by exists acc|].
  cbn [pinned_loop List.filter]. unfold ordinary in Hc. rewrite Hc.
  destruct (IH (<[host cert := default [] (acc !! host cert) ++ [hash cert]]> acc))
    as (table & Htable & Hlookup).
  exists table. split.
  - by destruct (acc !! host cert).
  - intros h. rewrite Hlookup.
    destruct (String.eqb_spec (host cert) h) as [->|Hne].
    + rewrite lookup_insert_eq. cbn [default fmap list_fmap].
      destruct (List.filter _ l) as [|c' l']; [done|].
      cbn. by rewrite <- app_assoc.
    + by rewrite lookup_insert_ne.
Qed.

(** The loop throws at the first host that is a name of
    [Object.prototype]. *)
Lemma pinned_loop_throws (certificates : list Certificate)
    (acc : gmap string (list string)) :
  (∀ h, inherited h = true → acc !! h = None) →
  Exists (λ cert, inherited (host cert) = true) certificates →
  ∃ e, pinned_loop certificates acc = Throw e.
Proof.
  intros Hacc Hex. revert acc Hacc.
  induction certificates as [|cert l IH]; intros acc Hacc;
    [by apply Exists_nil in Hex|].
  cbn [pinned_loop]. destruct (inherited (host cert)) eqn:E.
  - rewrite (Hacc _ E). by eexists.
  - apply Exists_cons in Hex as [Hex|Hex]; [congruence|].
    assert (Hstep : ∀ v h, inherited h = true → <[host cert := v]> acc !! h = None).
    { intros v h Hh. rewrite lookup_insert_ne; [by apply Hacc|].
      intros Heq. congruence. }
    destruct (acc !! host cert); (apply IH; [done | apply Hstep]).
Qed.

Lemma pinnedCerts_lookup (certificates : list Certificate) :
  Forall (λ cert, ordinary (host cert)) certificates →
  ∃ table, _pinnedCerts certificates = Ok table ∧
    ∀ h, table !! h
         = match List.filter (λ cert, String.eqb (host cert) h) certificates with
           | [] => None
           | pinned => Some (hash <$> pinned)
           end.
Proof.
  intros Hall.
  destruct (pinned_loop_ordinary certificates ∅ Hall) as (table & Ht & Hl).
  exists table. split; [done|]. intros h. rewrite Hl. by rewrite lookup_empty.
Qed.

Lemma pinnedCerts_throws (certificates : list Certificate) :
  ¬ Forall (λ cert, ordinary (host cert)) certificates →
  ∃ e, _pinnedCerts certificates = Throw e.
Proof.
  intros Hnot. unfold _pinnedCerts.
  apply pinned_loop_throws; [intros; apply lookup_empty|].
  apply Exists_exists.
  destruct (decide (Exists (λ cert, inherited (host cert) = true) certificates))
    as [Hex|Hno]; [by apply Exists_exists in Hex|].
  destruct Hnot. apply Forall_forall. intros cert Hc. unfold ordinary.
  destruct (inherited (host cert)) eqn:E; [|done].
  destruct Hno. apply Exists_exists. by exists cert.
Qed.

(** [$pinnedCerts] groups the hashes by host.  When no host is a name of
    [Object.prototype], a host without a pinned certificate has no entry,
    and the entry of any other host lists the hashes of its certificates in
    the order of [pinnedCertificates].  When some host is such a name, the
    getter throws. *)
Theorem pinnedCerts_by_host (certificates : list Certificate) :
  (Forall (λ cert, ordinary (host cert)) certificates →
   ∃ table, _pinnedCerts certificates = Ok table ∧
     ∀ h, table !! h
          = match List.filter (λ cert, String.eqb (host cert) h) certificates with
            | [] => None
            | pinned => Some (hash <$> pinned)
            end) ∧
  (¬ Forall (λ cert, ordinary (host cert)) certificates →
   ∃ e, _pinnedCerts certificates = Throw e).
Proof. split; [apply pinnedCerts_lookup | apply pinnedCerts_throws]. Qed.

Lemma array_includes_spec (array : list string) (x : string) :
  array_includes array x = true ↔ x ∈ array.
Proof.
  unfold array_includes. rewrite existsb_exists. split.
  - intros (y & Hy & E). apply String.eqb_eq in E as ->. by apply list_elem_of_In.
  - intros H. exists x. split; [by apply list_elem_of_In | apply String.eqb_refl].
Qed.

(** [_validateCertificate], when neither a pinned host nor the host of the
    event is a name of [Object.prototype]: it calls [preventDefault] exactly
    when the host of the event has pinned certificates and none of their
    hashes is among the hashes of the event, and leaves the event as it is
    in every other case.  When one of these hosts is such a name, it
    throws. *)
Theorem validateCertificate_decision (pinnedCertificates : list Certificate)
    (event : Event) :
  let usual :=
    Forall (λ cert, ordinary (host cert)) pinnedCertificates ∧
    ordinary (event_host event) in
  let refused :=
    (∃ cert, cert ∈ pinnedCertificates ∧ host cert = event_host event) ∧
    (∀ cert, cert ∈ pinnedCertificates → host cert = event_host event →
             hash cert ∉ event_hashes event) in
  (usual → refused →
   _validateCertificate pinnedCertificates event = Ok (preventDefault event)) ∧
  (usual → ¬ refused →
   _validateCertificate pinnedCertificates event = Ok event) ∧
  (¬ usual → ∃ e, _validateCertificate pinnedCertificates event = Throw e).
Proof.
  intros usual refused.
  assert (Hthrow : ¬ usual → ∃ e, _validateCertificate pinnedCertificates event = Throw e).
  { intros Hnot. unfold _validateCertificate.
    destruct (decide (Forall (λ cert, ordinary (host cert)) pinnedCertificates))
      as [Hall|Hbad].
    - destruct (pinnedCerts_lookup _ Hall) as (table & -> & Hl).
      assert (Hev : inherited (event_host event) = true).
      { destruct (inherited (event_host event)) eqn:E; [done|].
        destruct Hnot. by split. }
      rewrite Hl.
      destruct (List.filter _ pinnedCertificates) as [|c0 l0] eqn:E.
      + rewrite Hev. by eexists.
      + assert (Hin : c0 ∈ List.filter (λ cert, String.eqb (host cert) (event_host event))
                        pinnedCertificates) by (rewrite E; left).
        apply list_elem_of_In, filter_In in Hin as [Hin Hh].
        apply String.eqb_eq in Hh. rewrite Forall_forall in Hall.
        apply list_elem_of_In in Hin. specialize (Hall _ Hin).
        unfold ordinary in Hall. congruence.
    - destruct (pinnedCerts_throws _ Hbad) as [e ->]. by eexists. }
  assert (Husual : usual →
    (refused → _validateCertificate pinnedCertificates event = Ok (preventDefault event))
    ∧ (¬ refused → _validateCertificate pinnedCertificates event = Ok event)).
  { intros [Hall Hev]. unfold _validateCertificate.
    destruct (pinnedCerts_lookup _ Hall) as (table & -> & Hl). rewrite Hl.
    unfold ordinary in Hev.
    set (pinned := List.filter _ pinnedCertificates).
    assert (Hpinned : ∀ cert, cert ∈ pinned
                      ↔ cert ∈ pinnedCertificates ∧ host cert = event_host event).
    { intros cert. unfold pinned.
      rewrite !list_elem_of_In, filter_In, String.eqb_eq. done. }
    assert (Hsome : existsb (λ hash, array_includes (event_hashes event) hash)
                      (hash <$> pinned) = true
                    ↔ ∃ cert, cert ∈ pinned ∧ hash cert ∈ event_hashes event).
    { rewrite existsb_exists. split.
      - intros (x & Hx & Hin). apply list_elem_of_In, list_elem_of_fmap in Hx
          as (cert & -> & Hc). exists cert. split; [done|].
        by apply array_includes_spec.
      - intros (cert & Hc & Hin). exists (hash cert). split.
        + apply list_elem_of_In, list_elem_of_fmap. by exists cert.
        + by apply array_includes_spec. }
    destruct pinned as [|c0 l0] eqn:E.
    - rewrite Hev. split; [|done]. intros [(cert & Hc) _]. apply Hpinned in Hc.
      by apply elem_of_nil in Hc.
    - rewrite <- E in *.
      remember (existsb (λ hash, array_includes (event_hashes event) hash)
                  (hash <$> pinned)) as found eqn:Ex in |- *.
      symmetry in Ex. destruct found; cbn [negb].
      + split; [|done]. intros [_ Hnone].
        apply Hsome in Ex as (cert & Hc & Hin).
        apply Hpinned in Hc as [Hc Hh]. by destruct (Hnone cert Hc Hh).
      + split; [done|]. intros Hnot. exfalso. apply Hnot. split.
        * exists c0. apply Hpinned. rewrite E. by left.
        * intros cert Hc Hh Hin.
          assert (Hex : existsb (λ hash, array_includes (event_hashes event) hash)
                          (hash <$> pinned) = true).
          { apply Hsome. exists cert. split; [by apply Hpinned | done]. }
          congruence. }
  split; [|split; [|done]].
  - intros Hu. by apply Husual.
  - intros Hu. by apply Husual.
Qed.

End CertificateFacts.

Section CertificateSamples.

Import Certificates.

Lemma pinnedCerts_by_host_witness :
  let pinned := [ {| host := "example.com"; hash := "sha256/AAA" |};
                  {| host := "other.org"; hash := "sha256/BBB" |};
                  {| host := "example.com"; hash := "sha256/CCC" |} ] in
  (∃ table, _pinnedCerts pinned = Ok table ∧
     ∀ h, table !! h
          = match List.filter (λ cert, String.eqb (host cert) h) pinned with
            | [] => None
            | certs => Some (hash <$> certs)
            end) ∧
  ∃ e, _pinnedCerts [ {| host := "constructor"; hash := "sha256/AAA" |} ] = Throw e.
Proof.
  split.
  - apply (proj1 (pinnedCerts_by_host _)).
    repeat constructor.
  - apply (proj2 (pinnedCerts_by_host _)).
    intros H. apply Forall_cons in H as [H _]. vm_compute in H. discriminate.
Defined.

Lemma validateCertificate_decision_witness :
  let pinned := [ {| host := "example.com"; hash := "sha256/AAA" |};
                  {| host := "other.org"; hash := "sha256/BBB" |};
                  {| host := "example.com"; hash := "sha256/CCC" |} ] in
  let forged := {| event_host := "example.com"; event_hashes := ["sha256/ZZZ"];
                   defaultPrevented := false |} in
  let genuine := {| event_host := "example.com"; event_hashes := ["sha256/CCC"];
                    defaultPrevented := false |} in
  let odd := {| event_host := "constructor"; event_hashes := ["sha256/CCC"];
                defaultPrevented := false |} in
  _validateCertificate pinned forged = Ok (preventDefault forged) ∧
  _validateCertificate pinned genuine = Ok genuine ∧
  ∃ e, _validateCertificate pinned odd = Throw e.
Proof.
  split; [|split].
  - apply (proj1 (validateCertificate_decision _ _)).
    + split; [repeat constructor | reflexivity].
    + split.
      * eexists. split; [left|reflexivity].
      * intros cert Hc Hh Hin. cbn in Hin.
        apply list_elem_of_singleton in Hin.
        repeat (apply elem_of_cons in Hc as [->|Hc]); try discriminate.
        by apply elem_of_nil in Hc.
  - apply (proj1 (proj2 (validateCertificate_decision _ _))).
    + split; [repeat constructor | reflexivity].
    + intros [_ Hnone].
      apply (Hnone {| host := "example.com"; hash := "sha256/CCC" |});
        [do 2 right; left | reflexivity | left].
  - apply (proj2 (proj2 (validateCertificate_decision _ _))).
    intros [_ H]. vm_compute in H. discriminate.
Defined.

End CertificateSamples.

Section EncodeFacts.

Import Certificates.

Variable toValueString : Value → string.
Variable platform : string.

Lemma check_acceptable (cert : CertObject) :
  check toValueString platform cert = Ok tt ↔ acceptable platform cert.
Proof.
  unfold check, acceptable. destruct cert as [h x a].
  cbn [cert_host cert_hash cert_algorithm].
  destruct h as [| |?|?|h|?];
    try (split; [done | intros (? & ? & ? & _); done]).
  destruct x as [| |?|?|x|?];
    try (split; [done | intros (? & ? & _ & ? & _); done]).
  destruct (String.prefix "sha256/" x) eqn:Ep; cbn [negb];
    [|split; [done | intros (? & ? & _ & [= <-] & ? & _); congruence]].
  destruct (String.eqb_spec platform "iOS") as [Hp|Hp].
  - destruct a as [[| |?|?|alg|?]|];
      try (split; [done | intros (? & ? & _ & _ & _ & Ha);
                          destruct (Ha Hp) as (? & ? & _); done]).
    destruct (Z.eqb_spec (JsString.indexOf String.eqb CERTIFICATE_ALGORITHMS alg) (-1))
      as [E|E].
    + split; [done|]. intros (? & ? & _ & _ & _ & Ha).
      destruct (Ha Hp) as (? & [= <-] & Hin).
      apply indexOf_string in Hin. apply Z.eqb_neq in Hin. done.
    + split; [|done]. intros _. exists h, x. repeat split; try done.
      intros _. exists alg. split; [done|].
      apply indexOf_string. by apply Z.eqb_neq.
  - split; [|done]. intros _. exists h, x. repeat split; done.
Qed.

Lemma check_all_acceptable (l : list CertObject) :
  check_all toValueString platform l = Ok tt ↔ Forall (acceptable platform) l.
Proof.
  induction l as [|cert l IH]; [by split; [constructor|]|].
  cbn [check_all]. rewrite Forall_cons, <- IH, <- check_acceptable.
  destruct (check toValueString platform cert) as [[]|e]; [tauto|].
  split; [done | by intros [? _]].
Qed.

(** [encode] of [pinnedCertificates] hands back the very array it was
    given when every certificate in it is acceptable (a string [host], a
    string [hash] that starts with ["sha256/"] and, on iOS, an [algorithm]
    out of the three known ones), and throws in every other case, as it
    does on a value that is not an array. *)
Theorem encode_accepts_well_formed (certificates : CertInput) :
  match certificates with
  | NotArray _ =>
      encode toValueString platform certificates = Throw (Error "Not an Array")
  | CertArray l =>
      (Forall (acceptable platform) l →
       encode toValueString platform certificates = Ok certificates) ∧
      (¬ Forall (acceptable platform) l →
       ∃ e, encode toValueString platform certificates = Throw e)
  end.
Proof.
  destruct certificates as [l|v]; [|done]. cbn [encode].
  pose proof (check_all_acceptable l) as H.
  destruct (check_all toValueString platform l) as [[]|e].
  - split; [done|]. intros Hn. by destruct Hn, H as [H _]; auto.
  - split; [|by eexists]. intros Hall. apply H in Hall. done.
Qed.

End EncodeFacts.

Section EncodeSamples.

Import Certificates.

Lemma encode_accepts_well_formed_witness :
  let good := {| cert_host := VStr "example.com"; cert_hash := VStr "sha256/AAA";
                 cert_algorithm := Some (VStr "RSA2048") |} in
  let bad := {| cert_host := VStr "example.com"; cert_hash := VStr "sha1/AAA";
                cert_algorithm := Some (VStr "RSA2048") |} in
  encode (λ _, "?") "iOS" (CertArray [good]) = Ok (CertArray [good]) ∧
  ∃ e, encode (λ _, "?") "iOS" (CertArray [good; bad]) = Throw e.
Proof.
  split.
  - apply (proj1 (encode_accepts_well_formed (λ _, "?") "iOS"
                    (CertArray [ {| cert_host := VStr "example.com";
                                    cert_hash := VStr "sha256/AAA";
                                    cert_algorithm := Some (VStr "RSA2048") |} ]))).
    constructor; [|constructor].
    exists "example.com", "sha256/AAA". repeat split.
    intros _. exists "RSA2048". split; [reflexivity | left].
  - apply (proj2 (encode_accepts_well_formed (λ _, "?") "iOS"
                    (CertArray [ {| cert_host := VStr "example.com";
                                    cert_hash := VStr "sha256/AAA";
                                    cert_algorithm := Some (VStr "RSA2048") |};
                                 {| cert_host := VStr "example.com";
                                    cert_hash := VStr "sha1/AAA";
                                    cert_algorithm := Some (VStr "RSA2048") |} ]))).
    intros H. apply Forall_cons in H as [_ H]. apply Forall_cons in H as [H _].
    destruct H as (h & x & _ & Hx & Hp & _). cbn in Hx. injection Hx as <-.
    vm_compute in Hp. discriminate.
Defined.

(** Off iOS the [algorithm] is not looked at. *)
Example encode_without_algorithm :
  let cert := {| cert_host := VStr "example.com"; cert_hash := VStr "sha256/AAA";
                 cert_algorithm := None |} in
  encode (λ _, "?") "Android" (CertArray [cert]) = Ok (CertArray [cert]) ∧
  encode (λ _, "?") "iOS" (CertArray [cert])
  = Throw (Error "Missing algorithm for pinned certificate example.com").
Proof. vm_compute. done. Qed.

End EncodeSamples.

(** ** Fonts *)

Section FontFacts.

Import Fonts.

Context {St : Type}.
Variable _nativeCall : string → list (string * Value) → M St unit.
Variable toValueString : Value → string.

(** [registerFont] makes its native call exactly when it is given at least
    two arguments of which the first two are strings, and then passes these
    two on as [alias] and [file]; on any other arguments it throws and the
    native side is not called. *)
Theorem registerFont_checks_arguments (arguments : list Value) (s : St) :
  (∀ alias file rest,
     arguments = VStr alias :: VStr file :: rest →
     registerFont _nativeCall toValueString arguments s
     = _nativeCall "registerFont" [("alias", VStr alias); ("file", VStr file)] s) ∧
  ((¬ ∃ alias file rest, arguments = VStr alias :: VStr file :: rest) →
   ∃ e, registerFont _nativeCall toValueString arguments s = (s, Throw e)).
Proof.
  split.
  - intros alias file rest ->. reflexivity.
  - intros Hno. unfold registerFont, argument.
    destruct arguments as [|x [|y rest]]; [by eexists..|].
    change (List.length (x :: y :: rest) <? 2)%nat with false. cbv iota.
    cbn [lookup list_lookup default].
    destruct x as [| |?|?|alias|?]; try by eexists.
    destruct y as [| |?|?|file|?]; try by eexists.
    destruct Hno. by exists alias, file, rest.
Qed.

End FontFacts.

Section FontSamples.

Import Fonts.

Lemma registerFont_checks_arguments_witness :
  let native := λ (method : string) (parameters : list (string * Value))
                  (log : list (string * list (string * Value))),
                  (log ++ [(method, parameters)], Ok tt) in
  registerFont native (λ _, "?") [VStr "pt"; VStr "fonts/pt.ttf"] []
  = ([("registerFont", [("alias", VStr "pt"); ("file", VStr "fonts/pt.ttf")])], Ok tt) ∧
  ∃ e, registerFont native (λ _, "?") [VStr "pt"; VNum 3] [] = ([], Throw e).
Proof.
  split.
  - exact (proj1 (registerFont_checks_arguments
                    (λ method parameters log, (log ++ [(method, parameters)], Ok tt))
                    (λ _, "?") [VStr "pt"; VStr "fonts/pt.ttf"] [])
                 "pt" "fonts/pt.ttf" [] eq_refl).
  - apply (proj2 (registerFont_checks_arguments
                    (λ method parameters log, (log ++ [(method, parameters)], Ok tt))
                    (λ _, "?") [VStr "pt"; VNum 3] [])).
    intros (alias & file & rest & H). discriminate.
Defined.

End FontSamples.
